(** * cc-container: session store, stream decoder, task execution, release

    A shallow embedding of

    - [cc-headless-svc/src/services/session-manager.service.ts]
      (the session table behind an Effect [Ref]),
    - [claude-agent-svc/src/services/claude.service.ts]
      ([spawnClaudeProcess], [parseOutputStream], [executeTask]),

    together with the properties the specification states about them. *)

From Stdlib Require Import ZArith NArith Lia List.
From Stdlib Require Import Strings.String Strings.Ascii Strings.Byte.
From stdpp Require Import base option list gmap strings.

Local Open Scope Z_scope.

(** ** Effect programs over one shared [Ref]

    The services are written as generators: every [yield* Ref.get(..)] and
    every [yield* Ref.update(..)] is one atomic action on the shared cell,
    and a fiber may be descheduled between two of them.  A program is the
    tree of those actions; [Effect.fail] and the returned value are its
    leaves. *)

Module Effect.

Inductive Exit (E A : Type) : Type :=
| Failure (e : E)
| Success (a : A).
Arguments Failure {E A} e.
Arguments Success {E A} a.

Inductive Eff (S E A : Type) : Type :=
| succeed (a : A)
| fail (e : E)
| Ref_get (k : S -> Eff S E A)
| Ref_update (f : S -> S) (k : Eff S E A).
Arguments succeed {S E A} a.
Arguments fail {S E A} e.
Arguments Ref_get {S E A} k.
Arguments Ref_update {S E A} f k.

(** [Effect.catchAll]: the handler replaces a failure. *)
Fixpoint catchAll {S E E' A} (p : Eff S E A) (h : E -> Eff S E' A)
  : Eff S E' A :=
  match p with
  | succeed a => succeed a
  | fail e => h e
  | Ref_get k => Ref_get (fun s => catchAll (k s) h)
  | Ref_update f k => Ref_update f (catchAll k h)
  end.

(** One fiber running alone: the actions happen back to back. *)
Fixpoint run {S E A} (p : Eff S E A) (s : S) : Exit E A * S :=
  match p with
  | succeed a => (Success a, s)
  | fail e => (Failure e, s)
  | Ref_get k => run (k s) s
  | Ref_update f k => run k (f s)
  end.

(** One atomic action of a fiber; [None] once the fiber has finished. *)
Definition step {S E A} (p : Eff S E A) (s : S) : option (Eff S E A * S) :=
  match p with
  | Ref_get k => Some (k s, s)
  | Ref_update f k => Some (k, f s)
  | succeed _ | fail _ => None
  end.

Definition finished {S E A} (p : Eff S E A) : bool :=
  match p with
  | succeed _ | fail _ => true
  | _ => false
  end.

(** Several fibers on the same [Ref]: a schedule names, action by action,
    the fiber that moves next.  Naming a finished or missing fiber is a
    no-op. *)
Fixpoint interleave {S E A} (schedule : list nat)
    (fibers : list (Eff S E A)) (s : S) : list (Eff S E A) * S :=
  match schedule with
  | [] => (fibers, s)
  | i :: schedule' =>
      match fibers !! i with
      | Some p =>
          match step p s with
          | Some (p', s') => interleave schedule' (<[i := p']> fibers) s'
          | None => interleave schedule' fibers s
          end
      | None => interleave schedule' fibers s
      end
  end.

(** The fibers one after the other, each run to its end. *)
Fixpoint sequential {S E A} (fibers : list (Eff S E A)) (s : S) : S :=
  match fibers with
  | [] => s
  | p :: fibers' => sequential fibers' (snd (run p s))
  end.

End Effect.

Import Effect.

(** ** Session store  (session-manager.service.ts) *)

Module SessionManager.

(** [Record<string, unknown>]: the values are opaque to the store. *)
Definition Metadata : Type := list (string * string).

(** [SessionState] of schemas.ts.  Dates are their millisecond time values
    (what [>] and [getTime()] see); [taskCount] is an integer count. *)
Record SessionState : Type := mkSessionState {
  sessionId : string;
  userId : string;
  createdAt : Z;
  lastAccessedAt : Z;
  expiresAt : Z;
  claudeSessionId : option string;
  taskCount : Z;
  metadata : option Metadata
}.

(** The [Session] view the service hands back. *)
Record Session : Type := mkSession {
  s_sessionId : string;
  s_userId : string;
  s_createdAt : Z;
  s_updatedAt : Z;
  s_expiresAt : Z;
  s_claudeSessionId : option string;
  s_metadata : option Metadata
}.

(** [Partial<SessionState>]: a field is either not supplied ([None]) or
    supplied with a value. *)
Record PartialSessionState : Type := mkPartial {
  u_sessionId : option string;
  u_userId : option string;
  u_createdAt : option Z;
  u_lastAccessedAt : option Z;
  u_expiresAt : option Z;
  u_claudeSessionId : option (option string);
  u_taskCount : option Z;
  u_metadata : option (option Metadata)
}.

Inductive SessionError : Type :=
| SessionNotFoundError (sessionId : string)
| SessionExpiredError (sessionId : string) (expiredAt : Z)
| SessionCreationError (userId : string).

Abbreviation Sessions := (gmap string SessionState).
Abbreviation SessionEff := (Eff Sessions SessionError).

Section Service.

(** [config.getSessionTimeout], read once when the service is built. *)
Variable sessionTimeout : Z.

(** [createSession].  [uuid] is the value [uuidv4()] returns and [now] the
    reading of [new Date()]. *)
Definition createSession (uuid : string) (now : Z)
    (userId : string) (metadata : option Metadata) : SessionEff Session :=
  catchAll
    (let sessionId := uuid in
     let expiresAt := now + sessionTimeout in
     let newSession :=
       mkSessionState sessionId userId now now expiresAt None 0 metadata in
     Ref_update (fun map => <[sessionId := newSession]> map)
       (succeed
          (mkSession newSession.(SessionManager.sessionId)
             newSession.(SessionManager.userId)
             newSession.(createdAt)
             newSession.(lastAccessedAt)
             newSession.(SessionManager.expiresAt)
             None
             newSession.(SessionManager.metadata))))
    (fun _ : SessionError => fail (SessionCreationError userId)).

(** [getSession]. *)
Definition getSession (now : Z) (sessionId : string) : SessionEff Session :=
  Ref_get (fun sessionMap =>
    match sessionMap !! sessionId with
    | None => fail (SessionNotFoundError sessionId)
    | Some session =>
        if now >? session.(expiresAt) then
          Ref_update (fun map => delete sessionId map)
            (fail (SessionExpiredError sessionId session.(expiresAt)))
        else
          Ref_update
            (fun map =>
               let updatedSession :=
                 mkSessionState session.(SessionManager.sessionId)
                   session.(SessionManager.userId) session.(createdAt) now
                   session.(expiresAt) session.(claudeSessionId)
                   session.(taskCount) session.(SessionManager.metadata) in
               <[sessionId := updatedSession]> map)
            (succeed
               (mkSession session.(SessionManager.sessionId)
                  session.(SessionManager.userId) session.(createdAt) now
                  session.(expiresAt) session.(claudeSessionId)
                  session.(SessionManager.metadata)))
    end).

(** The object spread [{ ...session, ...updates }]: a supplied field wins. *)
Definition spread (session : SessionState) (updates : PartialSessionState)
  : SessionState :=
  mkSessionState
    (default session.(sessionId) updates.(u_sessionId))
    (default session.(userId) updates.(u_userId))
    (default session.(createdAt) updates.(u_createdAt))
    (default session.(lastAccessedAt) updates.(u_lastAccessedAt))
    (default session.(expiresAt) updates.(u_expiresAt))
    (default session.(claudeSessionId) updates.(u_claudeSessionId))
    (default session.(taskCount) updates.(u_taskCount))
    (default session.(metadata) updates.(u_metadata)).

(** [updateSession]: the merged record is built from the map that
    [Ref.get] returned, and written back by a later [Ref.update]. *)
Definition updateSession (now : Z) (sessionId : string)
    (updates : PartialSessionState) : SessionEff unit :=
  Ref_get (fun sessionMap =>
    match sessionMap !! sessionId with
    | None => fail (SessionNotFoundError sessionId)
    | Some session =>
        let merged := spread session updates in
        let updatedSession :=
          mkSessionState session.(SessionManager.sessionId)
            session.(SessionManager.userId) session.(createdAt) now
            merged.(expiresAt) merged.(claudeSessionId)
            merged.(taskCount) merged.(SessionManager.metadata) in
        Ref_update (fun map => <[sessionId := updatedSession]> map)
          (succeed tt)
    end).

(** [deleteSession]. *)
Definition deleteSession (sessionId : string) : SessionEff unit :=
  Ref_get (fun sessionMap =>
    match sessionMap !! sessionId with
    | None => fail (SessionNotFoundError sessionId)
    | Some _ => Ref_update (fun map => delete sessionId map) (succeed tt)
    end).

(** [incrementTaskCount]: the lookup and the write are inside the one
    function handed to [Ref.update]. *)
Definition bump (now : Z) (sessionId : string) (map : Sessions) : Sessions :=
  match map !! sessionId with
  | Some session =>
      <[sessionId :=
          mkSessionState session.(SessionManager.sessionId)
            session.(SessionManager.userId) session.(createdAt) now
            session.(expiresAt) session.(claudeSessionId)
            (session.(taskCount) + 1) session.(SessionManager.metadata)]> map
  | None => map
  end.

Definition incrementTaskCount (now : Z) (sessionId : string)
  : SessionEff unit :=
  Ref_update (bump now sessionId) (succeed tt).

End Service.

(** *** Vocabulary for the statements about the store *)

(** The record [getSession] leaves in the table on success, and the
    session it returns. *)
Definition touched (s : SessionState) (now : Z) : SessionState :=
  mkSessionState s.(sessionId) s.(userId) s.(createdAt) now s.(expiresAt)
    s.(claudeSessionId) s.(taskCount) s.(metadata).

Definition view (s : SessionState) (now : Z) : Session :=
  mkSession s.(sessionId) s.(userId) s.(createdAt) now s.(expiresAt)
    s.(claudeSessionId) s.(metadata).

(** The record [updateSession] writes for [s] and [updates]. *)
Definition merged (s : SessionState) (updates : PartialSessionState)
    (now : Z) : SessionState :=
  mkSessionState s.(sessionId) s.(userId) s.(createdAt) now
    (default s.(expiresAt) updates.(u_expiresAt))
    (default s.(claudeSessionId) updates.(u_claudeSessionId))
    (default s.(taskCount) updates.(u_taskCount))
    (default s.(metadata) updates.(u_metadata)).

(** The [taskCount] stored under an id. *)
Definition taskCountOf (sessionId : string) (map : Sessions) : option Z :=
  taskCount <$> map !! sessionId.

(** Fibers that have not finished yet. *)
Definition pending {S E A} (fibers : list (Eff S E A)) : nat :=
  length (filter (fun p => finished p = false) fibers).

(** A fiber of a pool of [incrementTaskCount] calls on [sessionId]: not
    started, or done. *)
Definition incrementing (sessionId : string) (p : SessionEff unit) : Prop :=
  p = succeed tt \/ exists now, p = incrementTaskCount now sessionId.

(** Linearizability of a pool of fibers on the store, as the
    specification words it: whatever the schedule, once every fiber has
    finished the table is the one some one-after-the-other order of the
    same fibers produces. *)
Definition linearizable (fibers : list (SessionEff unit)) (map : Sessions)
  : Prop :=
  forall schedule,
    pending (fst (interleave schedule fibers map)) = 0%nat ->
    exists order,
      Permutation order fibers
      /\ snd (interleave schedule fibers map) = sequential order map.

(** A small table for the examples: one session, created at 10, due to
    expire at 100, with three tasks counted. *)
Definition demo_session : SessionState :=
  mkSessionState "s1" "alice" 10 10 100 None 3 None.

Definition demo_sessions : Sessions := {[ "s1" := demo_session ]}.

(** Two partial updates: one attaches the external session id, the other
    moves the expiry. *)
Definition attach_external : PartialSessionState :=
  mkPartial None None None None None (Some (Some "claude-1")) None None.

Definition extend_expiry : PartialSessionState :=
  mkPartial None None None None (Some 500) None None None.

(** An update that tries to overwrite every field. *)
Definition overwrite_all : PartialSessionState :=
  mkPartial (Some "s2") (Some "mallory") (Some 0) (Some 1) (Some 500)
    (Some (Some "claude-1")) (Some 7) (Some None).

(** An update racing with an increment, and two updates racing. *)
Definition update_and_increment : list (SessionEff unit) :=
  [updateSession 20 "s1" attach_external; incrementTaskCount 21 "s1"].

Definition two_updates : list (SessionEff unit) :=
  [updateSession 20 "s1" attach_external; updateSession 21 "s1" extend_expiry].

(** *** The read-only operations and the sweep *)

(** [isSessionValid]. *)
Definition isSessionValid (now : Z) (sessionId : string) : SessionEff bool :=
  Ref_get (fun sessionMap =>
    match sessionMap !! sessionId with
    | None => succeed false
    | Some session => succeed (now <=? session.(expiresAt))
    end).

(** [getSessionCount]. *)
Definition getSessionCount : SessionEff nat :=
  Ref_get (fun sessionMap => succeed (size sessionMap)).

(** [getUserSessions].  The values are listed in the table's iteration
    order, which a [gmap] does not record: only what is in the list is
    meaningful here, not where. *)
Definition getUserSessions (userId : string) : SessionEff (list Session) :=
  Ref_get (fun sessionMap =>
    let userSessions :=
      map (fun session =>
             mkSession session.(SessionManager.sessionId)
               session.(SessionManager.userId) session.(createdAt)
               session.(lastAccessedAt) session.(expiresAt)
               session.(claudeSessionId) session.(SessionManager.metadata))
        (filter (fun session => session.(SessionManager.userId) = userId)
           (map snd (map_to_list sessionMap))) in
    succeed userSessions).

(** [cleanupExpiredSessions]: the one [Ref.update], whose function walks
    the entries of the copy, deletes the expired ones and counts them; the
    count is what the effect returns. *)
Definition cleanupExpiredSessions (now : Z) (map : Sessions)
  : nat * Sessions :=
  map_fold
    (fun sessionId session '(expiredCount, newMap) =>
       if now >? session.(expiresAt)
       then (S expiredCount, delete sessionId newMap)
       else (expiredCount, newMap))
    (0%nat, map) map.

(** Every record sits under its own [sessionId]. *)
Definition well_keyed (map : Sessions) : Prop :=
  map_Forall (fun key session => session.(sessionId) = key) map.


(** A second session of the example table's user, already expired at 50. *)
Definition stale_session : SessionState :=
  mkSessionState "s0" "alice" 1 2 40 None 1 None.

Definition two_sessions : Sessions := <["s0" := stale_session]> demo_sessions.

(** *** Where the integers stand for what the code computes

    The code's dates and counts are JavaScript values.  A [Date] holds a
    time value of at most 8.64e15 ms on either side of the epoch; beyond
    that [new Date(t)] is an Invalid Date, for which both [now > expiresAt]
    and [now <= expiresAt] are false.  A number is a double: [n + 1] is the
    integer after [n] as long as [n] lies between -2^53 and 2^53 - 1, and
    is rounded from there on.  The integers of the model stand for the
    code's values inside these ranges, and the statements about an expiry
    or about the exact count name them. *)
Definition MAX_TIME : Z := 8640000000000000.

Definition valid_time (t : Z) : Prop := - MAX_TIME <= t <= MAX_TIME.

Definition MAX_SAFE_INTEGER : Z := 2 ^ 53 - 1.

Definition exact_increment (count : Z) : Prop :=
  - MAX_SAFE_INTEGER - 1 <= count <= MAX_SAFE_INTEGER.

(** Every date stored under an id is a valid one. *)
Definition valid_dates (sessionId : string) (map : Sessions) : Prop :=
  forall session, map !! sessionId = Some session ->
    valid_time session.(createdAt)
    /\ valid_time session.(lastAccessedAt)
    /\ valid_time session.(expiresAt).


End SessionManager.

(** ** JavaScript text

    A JavaScript string is its sequence of UTF-16 code units; a [Buffer]
    is a sequence of bytes. *)

Module JS.

Abbreviation jsstring := (list N).

Definition LF : N := 10%N.

(** An ASCII literal as a JavaScript string. *)
Definition js (s : string) : jsstring :=
  map N_of_ascii (list_ascii_of_string s).

(** The same, with every apostrophe of the literal standing for a double
    quote. *)
Definition jsq (s : string) : jsstring :=
  map (fun c => if (c =? 39)%N then 34%N else c) (js s).

(** The bytes of an ASCII literal, apostrophes standing for double quotes. *)
Definition bytes (s : string) : list byte :=
  map (fun b => if Byte.eqb b "'"%byte then x22 else b) (list_byte_of_string s).

(** [String.prototype.split] with a one-unit separator: never empty. *)
Fixpoint split (sep : N) (s : jsstring) : list jsstring :=
  match s with
  | [] => [[]]
  | c :: s' =>
      if (c =? sep)%N then [] :: split sep s'
      else match split sep s' with
           | l :: ls => (c :: l) :: ls
           | [] => [[c]]
           end
  end.

(** WhiteSpace and LineTerminator code units, as [trim] strips them. *)
Definition isWhiteSpace (c : N) : bool :=
  ((9 <=? c) && (c <=? 13) || (c =? 32) || (c =? 160) || (c =? 5760)
   || (8192 <=? c) && (c <=? 8202) || (c =? 8232) || (c =? 8233)
   || (c =? 8239) || (c =? 8287) || (c =? 12288) || (c =? 65279))%N.

Fixpoint trimStart (s : jsstring) : jsstring :=
  match s with
  | c :: s' => if isWhiteSpace c then trimStart s' else s
  | [] => []
  end.

(** [String.prototype.trim]. *)
Definition trim (s : jsstring) : jsstring :=
  rev (trimStart (rev (trimStart s))).

(** Truthiness of a string: the empty string is falsy. *)
Definition truthy (s : jsstring) : bool :=
  match s with [] => false | _ => true end.

(** *** [Buffer.prototype.toString()]: UTF-8 decoding

    An ill-formed or truncated sequence decodes to U+FFFD, the byte that
    broke it being read again as the start of a new sequence. *)

Definition REPLACEMENT : N := 65533%N.

Record Utf8Pending : Type := mkPending {
  code_point : N;
  remaining : nat;
  lower : N;
  upper : N
}.

Definition utf8_lead (b : N) : list N * option Utf8Pending :=
  (if b <=? 127 then ([b], None)
   else if (194 <=? b) && (b <=? 223) then
     ([], Some (mkPending (N.land b 31) 1 128 191))
   else if (224 <=? b) && (b <=? 239) then
     ([], Some (mkPending (N.land b 15) 2
                  (if b =? 224 then 160 else 128)
                  (if b =? 237 then 159 else 191)))
   else if (240 <=? b) && (b <=? 244) then
     ([], Some (mkPending (N.land b 7) 3
                  (if b =? 240 then 144 else 128)
                  (if b =? 244 then 143 else 191)))
   else ([REPLACEMENT], None))%N.

Fixpoint utf8_decode (st : option Utf8Pending) (bs : list N) : list N :=
  match bs with
  | [] => match st with Some _ => [REPLACEMENT] | None => [] end
  | b :: bs' =>
      match st with
      | None =>
          let '(out, st') := utf8_lead b in out ++ utf8_decode st' bs'
      | Some p =>
          if ((p.(lower) <=? b) && (b <=? p.(upper)))%N then
            let cp := N.lor (N.shiftl p.(code_point) 6) (N.land b 63) in
            match p.(remaining) with
            | S (S r) =>
                utf8_decode (Some (mkPending cp (S r) 128 191)) bs'
            | _ => cp :: utf8_decode None bs'
            end
          else
            let '(out, st') := utf8_lead b in
            REPLACEMENT :: out ++ utf8_decode st' bs'
      end
  end.

(** A code point as UTF-16 code units. *)
Definition utf16 (cp : N) : list N :=
  (if cp <? 65536 then [cp]
   else [55296 + (cp - 65536) / 1024; 56320 + (cp - 65536) mod 1024])%N.

Definition Buffer_toString (chunk : list byte) : jsstring :=
  flat_map utf16 (utf8_decode None (map Byte.to_N chunk)).

(** A chunk of ASCII bytes only. *)
Definition ascii_only (chunk : list byte) : Prop :=
  Forall (fun b => (Byte.to_N b <= 127)%N) chunk.

End JS.

Import JS.

(** ** Claude service  (claude.service.ts) *)

Module ClaudeService.

(** [ClaudeOutputEvent] of schemas.ts.  A [start] event may carry a
    [sessionId] property next to the declared ones: [executeTask] looks for
    it. *)
Inductive CompleteStatus : Type := status_success | status_failure.

Inductive ClaudeOutputEvent : Type :=
| ev_start (taskId : jsstring) (sessionId : option jsstring)
| ev_output (content : jsstring)
| ev_tool_use (toolName toolInput : jsstring)
| ev_tool_result (toolName toolOutput : jsstring)
| ev_error (message : jsstring) (code : option jsstring)
| ev_complete (taskId : jsstring) (status : CompleteStatus).

(** The tagged errors of errors.ts that the service raises. *)
Inductive ClaudeError : Type :=
| ClaudeOutputParseError (rawOutput : jsstring)
| ClaudeProcessError (message : jsstring) (exitCode : option Z)
    (stderr : option jsstring)
| ClaudeTimeoutError (taskId : jsstring) (timeoutMs : Z)
| ClaudeProcessSpawnError (message : jsstring).

(** *** [Stream.async]

    The registered callback talks to the stream through [emit]:
    [emit.single] adds an element, [emit.fail] terminates the stream with
    an error and [emit.end] terminates it normally.  What is emitted after
    a termination is not delivered. *)
Inductive Emit : Type :=
| emit_single (event : ClaudeOutputEvent)
| emit_fail (error : ClaudeError)
| emit_end.

Inductive StreamExit : Type :=
| Open
| Ended
| Failed (error : ClaudeError).

Fixpoint deliver (emits : list Emit) : list ClaudeOutputEvent * StreamExit :=
  match emits with
  | [] => ([], Open)
  | emit_single event :: emits' =>
      let '(events, exit) := deliver emits' in (event :: events, exit)
  | emit_fail error :: _ => ([], Failed error)
  | emit_end :: _ => ([], Ended)
  end.

(** What the child process does, in the order Node reports it. *)
Inductive ProcessEvent : Type :=
| stdout_data (chunk : list byte)
| stderr_data (chunk : list byte)
| close (code : option Z)
| error (message : jsstring).

Section Decoder.

(** [chunk.toString()] and [JSON.parse] (with the cast of its result to
    [ClaudeOutputEvent]; [None] when it throws). *)
Variable toString : list byte -> jsstring.
Variable JSON_parse : jsstring -> option ClaudeOutputEvent.

(** The body of [for (const line of lines)]. *)
Definition decode_line (line : jsstring) : list Emit :=
  let trimmed := trim line in
  if negb (truthy trimmed) then []
  else match JSON_parse trimmed with
       | Some parsed => [emit_single parsed]
       | None => [emit_fail (ClaudeOutputParseError trimmed)]
       end.

(** [process.stdout.on('data', ..)]: the new buffer and the emits. *)
Definition on_data (buffer : jsstring) (chunk : list byte)
  : jsstring * list Emit :=
  let buffer := buffer ++ toString chunk in
  let lines := split LF buffer in
  let buffer := List.last lines [] in
  let lines := removelast lines in
  (buffer, flat_map decode_line lines).

(** [process.on('close', ..)]. *)
Definition on_close (buffer : jsstring) : list Emit :=
  (if truthy (trim buffer) then
     match JSON_parse (trim buffer) with
     | Some parsed => [emit_single parsed]
     | None => []
     end
   else []) ++ [emit_end].

(** [process.on('error', ..)]. *)
Definition on_error (message : jsstring) : list Emit :=
  [emit_fail
     (ClaudeProcessError (js "Claude process error: " ++ message) None None)].

(** One process event against the callback's [buffer]. *)
Definition handle (buffer : jsstring) (ev : ProcessEvent)
  : jsstring * list Emit :=
  match ev with
  | stdout_data chunk => on_data buffer chunk
  | stderr_data _ => (buffer, [])
  | close _ => (buffer, on_close buffer)
  | error message => (buffer, on_error message)
  end.

(** Every emit of the callback over a run of the process. *)
Fixpoint emitted (buffer : jsstring) (trace : list ProcessEvent)
  : list Emit :=
  match trace with
  | [] => []
  | ev :: trace' =>
      let '(buffer', emits) := handle buffer ev in
      emits ++ emitted buffer' trace'
  end.

(** [parseOutputStream]: the stream a consumer sees. *)
Definition parseOutputStream (trace : list ProcessEvent)
  : list ClaudeOutputEvent * StreamExit :=
  deliver (emitted [] trace).

(** *** [executeTask] *)

Record ClaudeExecuteOptions : Type := mkOptions {
  prompt : jsstring;
  sessionId : option jsstring;
  timeout : option Z;
  workingDirectory : option jsstring
}.

Record ClaudeResult : Type := mkResult {
  r_sessionId : option jsstring;
  r_output : jsstring;
  r_exitCode : Z;
  r_success : bool
}.

(** The three [let] variables of [executeTask]. *)
Record Collected : Type := mkCollected {
  output : jsstring;
  newSessionId : option jsstring;
  success : bool
}.

Definition truthy_opt (s : option jsstring) : bool :=
  match s with Some s => truthy s | None => false end.

(** The [switch (event.type)] of the [runForEach] callback. *)
Definition on_event (options : ClaudeExecuteOptions) (c : Collected)
    (event : ClaudeOutputEvent) : Collected :=
  match event with
  | ev_start _ sid =>
      if negb (truthy_opt options.(sessionId)) && bool_decide (is_Some sid)
      then mkCollected c.(output) sid c.(success)
      else c
  | ev_output content =>
      mkCollected (c.(output) ++ content ++ [LF]) c.(newSessionId)
        c.(success)
  | ev_complete _ status =>
      mkCollected c.(output) c.(newSessionId)
        (match status with status_success => true | status_failure => false
         end)
  | ev_error message _ =>
      mkCollected (c.(output) ++ js "ERROR: " ++ message ++ [LF])
        c.(newSessionId) c.(success)
  | ev_tool_use _ _ | ev_tool_result _ _ => c
  end.

Definition collect (options : ClaudeExecuteOptions)
    (events : list ClaudeOutputEvent) : Collected :=
  fold_left (on_event options) events
    (mkCollected [] options.(sessionId) false).

(** What remains of [executeTask] once the [close] listener has been
    called with [code]: lines 235-254. *)
Definition conclude (c : Collected) (code : option Z)
  : Exit ClaudeError ClaudeResult :=
  let exitCode := match code with Some n => n | None => 0 end in
  if negb c.(success) && negb (exitCode =? 0) then
    Failure
      (ClaudeProcessError (js "Claude process failed") (Some exitCode)
         (Some c.(output)))
  else
    Success (mkResult c.(newSessionId) (trim c.(output)) exitCode c.(success)).

(** A whole execution.  Besides the process events the run may see the
    [Effect.timeout] timer fire.  [Pending] is a fiber still suspended when
    nothing more will happen. *)
Inductive Occurrence : Type :=
| of_process (ev : ProcessEvent)
| timeout_elapsed.

Inductive Outcome : Type :=
| Pending
| Done (exit : Exit ClaudeError ClaudeResult).

(** [config.getTaskTimeout]. *)
Variable defaultTimeout : Z.

Definition effectiveTimeout (options : ClaudeExecuteOptions) : Z :=
  match options.(timeout) with
  | Some t => if t =? 0 then defaultTimeout else t
  | None => defaultTimeout
  end.

(** After the stream has ended: the listener registered by
    [Effect.async] hears the next [close], if there is one. *)
Fixpoint awaitExit (c : Collected) (rest : list Occurrence) : Outcome :=
  match rest with
  | [] => Pending
  | of_process (close code) :: _ => Done (conclude c code)
  | _ :: rest' => awaitExit c rest'
  end.

(** While the stream is consumed under the timeout. *)
Fixpoint consuming (options : ClaudeExecuteOptions) (buffer : jsstring)
    (c : Collected) (run : list Occurrence) : Outcome :=
  match run with
  | [] => Pending
  | timeout_elapsed :: _ =>
      Done (Failure
              (ClaudeTimeoutError
                 (match options.(sessionId) with
                  | Some s => if truthy s then s else js "unknown"
                  | None => js "unknown"
                  end)
                 (effectiveTimeout options)))
  | of_process ev :: run' =>
      let '(buffer', emits) := handle buffer ev in
      let '(events, exit) := deliver emits in
      let c' := fold_left (on_event options) events c in
      match exit with
      | Open => consuming options buffer' c' run'
      | Ended => awaitExit c' run'
      | Failed err => Done (Failure err)
      end
  end.

Definition executeTask (options : ClaudeExecuteOptions)
    (run : list Occurrence) : Outcome :=
  consuming options [] (mkCollected [] options.(sessionId) false) run.

(** *** Vocabulary for the statements about the decoder *)

(** The text the callback has seen, the lines a newline has completed, and
    what follows the last newline. *)
Definition text (chunks : list (list byte)) : jsstring :=
  flat_map toString chunks.

Definition complete_lines (t : jsstring) : list jsstring :=
  removelast (split LF t).

Definition leftover (t : jsstring) : jsstring :=
  List.last (split LF t) [].

(** A process that writes [chunks] and then closes. *)
Definition writes (chunks : list (list byte)) (code : option Z)
  : list ProcessEvent :=
  map stdout_data chunks ++ [close code].

(** A line the loop gets through without [emit.fail]: blank, or accepted
    by [JSON.parse]. *)
Definition decodable (line : jsstring) : bool :=
  negb (truthy (trim line))
  || match JSON_parse (trim line) with Some _ => true | None => false end.

Definition malformed (line : jsstring) : bool := negb (decodable line).

(** The events of the lines that decode. *)
Definition valid_events (lines : list jsstring) : list ClaudeOutputEvent :=
  flat_map
    (fun line =>
       if truthy (trim line) then
         match JSON_parse (trim line) with Some e => [e] | None => [] end
       else [])
    lines.

(** The specification's reading of a malformed line: the events of the
    valid lines after it still reach the consumer. *)
Definition survives_decode_failure (chunks : list (list byte)) : Prop :=
  forall before bad after event code,
    complete_lines (text chunks) = before ++ bad :: after ->
    malformed bad = true ->
    In event (valid_events after) ->
    In event (fst (parseOutputStream (writes chunks code))).

(** The specification's reading of the last, unterminated line: when it
    decodes, its event reaches the consumer, and either way the sequence
    ends without error. *)
Definition leftover_reaches_consumer (chunks : list (list byte)) : Prop :=
  forall code,
    truthy (trim (leftover (text chunks))) = true ->
    snd (parseOutputStream (writes chunks code)) = Ended
    /\ forall event,
         JSON_parse (trim (leftover (text chunks))) = Some event ->
         In event (fst (parseOutputStream (writes chunks code))).

(** The specification's chunk invariance: the same bytes, cut anywhere,
    give the same stream. *)
Definition chunk_invariant : Prop :=
  forall chunks1 chunks2 code,
    concat chunks1 = concat chunks2 ->
    parseOutputStream (writes chunks1 code)
    = parseOutputStream (writes chunks2 code).

(** Whether the most recent [complete] event, if any, reported success,
    and whether some [complete] event ever did. *)
Definition is_success (event : ClaudeOutputEvent) : bool :=
  match event with ev_complete _ status_success => true | _ => false end.

Definition last_complete_succeeded (events : list ClaudeOutputEvent)
  : bool :=
  fold_left
    (fun flag event =>
       match event with
       | ev_complete _ status => is_success event
       | _ => flag
       end)
    events false.

Definition success_seen (events : list ClaudeOutputEvent) : bool :=
  existsb is_success events.

(** The specification's rule for the end of an execution, on the events
    consumed and the exit code. *)
Definition fails_only_without_success (options : ClaudeExecuteOptions)
    (events : list ClaudeOutputEvent) (code : option Z) : Prop :=
  let c := collect options events in
  let exitCode := match code with Some n => n | None => 0 end in
  (success_seen events = false /\ exitCode <> 0 ->
   conclude c code
   = Failure (ClaudeProcessError (js "Claude process failed")
                (Some exitCode) (Some c.(output))))
  /\ (~ (success_seen events = false /\ exitCode <> 0) ->
      exists result,
        conclude c code = Success result
        /\ result.(r_output) = trim c.(output)).

End Decoder.

(** *** The release action of [spawnClaudeProcess]

    A [ChildProcess] object next to the operating-system process behind
    it.  [killed] is Node's flag: set by a [kill()] call that delivered
    its signal, whatever the process then does with it. *)

Inductive Signal : Type := SIGTERM | SIGKILL.

Record ChildProcess : Type := mkChild {
  pid : option Z;
  killed : bool;
  alive : bool;             (* the OS process has not exited *)
  ignoresSIGTERM : bool;    (* the program traps or ignores SIGTERM *)
  received : list Signal    (* the signals delivered so far *)
}.

(** [subprocess.kill(signal)]: delivery succeeds while the process exists;
    the call then sets [killed] and returns [true].  A process that is gone
    answers ESRCH and the call returns [false]. *)
Definition kill (signal : Signal) (p : ChildProcess) : bool * ChildProcess :=
  if p.(alive) then
    (true,
     mkChild p.(pid) true
       (match signal with
        | SIGKILL => false
        | SIGTERM => p.(ignoresSIGTERM)
        end)
       p.(ignoresSIGTERM) (p.(received) ++ [signal]))
  else (false, p).

Inductive ReleaseStep : Type :=
| call_kill (signal : Signal)
| sleep (ms : Z).

(** The finalizer: the process afterwards and what the finalizer did. *)
Definition release (process : ChildProcess)
  : ChildProcess * list ReleaseStep :=
  if bool_decide (is_Some process.(pid) ∧ process.(pid) ≠ Some 0)
     && negb process.(killed) then
    let process1 := snd (kill SIGTERM process) in
    if negb process1.(killed) then
      (snd (kill SIGKILL process1),
       [call_kill SIGTERM; sleep 1000; call_kill SIGKILL])
    else (process1, [call_kill SIGTERM; sleep 1000])
  else (process, []).

(** *** A reader for protocol lines

    [JSON.parse] on the lines of the shape
    [{"type":"start","taskId":S}], [{"type":"output","content":S}],
    [{"type":"error","message":S}] and
    [{"type":"complete","taskId":S,"status":"success"|"failure"}], where
    the string literal [S] has no escape; any other text is refused. *)

Definition plain (c : N) : bool :=
  ((32 <=? c) && negb (c =? 34) && negb (c =? 92))%N.

Fixpoint span_plain (s : jsstring) : jsstring * jsstring :=
  match s with
  | c :: s' =>
      if plain c then let '(a, b) := span_plain s' in (c :: a, b)
      else ([], s)
  | [] => ([], [])
  end.

Fixpoint strip_prefix (p s : jsstring) : option jsstring :=
  match p, s with
  | [], _ => Some s
  | a :: p', b :: s' => if (a =? b)%N then strip_prefix p' s' else None
  | _ :: _, [] => None
  end.

Definition field (opening closing : jsstring)
    (mk : jsstring -> ClaudeOutputEvent) (s : jsstring)
  : option ClaudeOutputEvent :=
  match strip_prefix opening s with
  | Some s' =>
      let '(value, rest) := span_plain s' in
      if bool_decide (rest = closing) then Some (mk value) else None
  | None => None
  end.

Definition parse_line (s : jsstring) : option ClaudeOutputEvent :=
  match field (jsq "{'type':'start','taskId':'") (jsq "'}")
          (fun v => ev_start v None) s with
  | Some e => Some e
  | None =>
  match field (jsq "{'type':'output','content':'") (jsq "'}") ev_output s with
  | Some e => Some e
  | None =>
  match field (jsq "{'type':'error','message':'") (jsq "'}")
          (fun v => ev_error v None) s with
  | Some e => Some e
  | None =>
  match field (jsq "{'type':'complete','taskId':'")
          (jsq "','status':'success'}")
          (fun v => ev_complete v status_success) s with
  | Some e => Some e
  | None =>
      field (jsq "{'type':'complete','taskId':'")
        (jsq "','status':'failure'}")
        (fun v => ev_complete v status_failure) s
  end end end end.

(** *** Inputs for the examples *)

Definition start_line : list byte := bytes "{'type':'start','taskId':'t1'}".
Definition output_line : list byte := bytes "{'type':'output','content':'hi'}".

(** The three chunks of the specification's example. *)
Definition example_chunks : list (list byte) :=
  [bytes "{'type':'start'";
   bytes ",'taskId':'t1'}" ++ [x0a] ++ bytes "{'type':'output'";
   bytes ",'content':'hi'}" ++ [x0a]].

(** A line that is not JSON, then a valid one. *)
Definition garbled_then_valid : list (list byte) :=
  [bytes "oops" ++ [x0a] ++ output_line ++ [x0a]].

(** An [output] event whose content is U+00E9, two bytes in UTF-8, whole
    and cut between the two bytes. *)
Definition accent_whole : list (list byte) :=
  [bytes "{'type':'output','content':'" ++ [xc3; xa9] ++ bytes "'}" ++ [x0a]].

Definition accent_cut : list (list byte) :=
  [bytes "{'type':'output','content':'" ++ [xc3];
   [xa9] ++ bytes "'}" ++ [x0a]].

(** A valid line, then a last line with and without its end. *)
Definition unterminated_valid : list (list byte) :=
  [start_line ++ [x0a] ++ output_line].

Definition unterminated_cut : list (list byte) :=
  [start_line ++ [x0a] ++ bytes "{'type':'outp"].

(** A child that traps SIGTERM and keeps running. *)
Definition stubborn_child : ChildProcess :=
  mkChild (Some 4242) false true true [].

Definition cooperative_child : ChildProcess :=
  mkChild (Some 4242) false true false [].

Definition no_options : ClaudeExecuteOptions :=
  mkOptions (js "echo hi") None None None.

(** *** [checkAvailability]

    [claude --version] is spawned; the effect resumes with the first
    [close] (then the version is logged and the answer is [true]) or the
    first [error] (then [catchAll] turns the failure into [false]).  A
    [spawn] that throws, or returns nothing, also answers [false].  [None]
    is the effect still waiting. *)
Fixpoint awaitVersion (trace : list ProcessEvent) : option bool :=
  match trace with
  | [] => None
  | close _ :: _ => Some true
  | error _ :: _ => Some false
  | (stdout_data _ | stderr_data _) :: trace' => awaitVersion trace'
  end.

Definition checkAvailability (spawned : option (list ProcessEvent))
  : option bool :=
  match spawned with
  | Some trace => awaitVersion trace
  | None => Some false
  end.

(** *** More vocabulary *)

(** An event that only carries output. *)
Definition is_output (ev : ProcessEvent) : bool :=
  match ev with
  | stdout_data _ | stderr_data _ => true
  | close _ | error _ => false
  end.

(** A run with the [stderr] events taken out. *)
Fixpoint without_stderr (trace : list ProcessEvent) : list ProcessEvent :=
  match trace with
  | [] => []
  | stderr_data _ :: trace' => without_stderr trace'
  | ev :: trace' => ev :: without_stderr trace'
  end.

(** A text with every line feed preceded by a carriage return. *)
Definition CR : N := 13%N.

Definition crlf (t : jsstring) : jsstring :=
  flat_map (fun c => if (c =? LF)%N then [CR; LF] else [c]) t.

(** What one event adds to the collected output. *)
Definition rendered (event : ClaudeOutputEvent) : jsstring :=
  match event with
  | ev_output content => content ++ [LF]
  | ev_error message _ => js "ERROR: " ++ message ++ [LF]
  | _ => []
  end.

(** The [sessionId] of the last [start] event that carries one. *)
Definition last_started (events : list ClaudeOutputEvent)
  : option jsstring :=
  fold_left
    (fun found event =>
       match event with
       | ev_start _ (Some sid) => Some sid
       | _ => found
       end)
    events None.

(** The pieces of a split text with a carriage return at the end of every
    piece but the last. *)
Fixpoint with_cr (pieces : list jsstring) : list jsstring :=
  match pieces with
  | [] => []
  | [piece] => [piece]
  | piece :: pieces' => (piece ++ [CR]) :: with_cr pieces'
  end.

(** The [taskId] a timeout reports. *)
Definition timeoutTaskId (options : ClaudeExecuteOptions) : jsstring :=
  match options.(sessionId) with
  | Some s => if truthy s then s else js "unknown"
  | None => js "unknown"
  end.

(** More inputs: the example chunks with CRLF line ends, a child that has
    already exited, and a resumed session. *)
Definition example_chunks_crlf : list (list byte) :=
  [bytes "{'type':'start'";
   bytes ",'taskId':'t1'}" ++ [x0d; x0a] ++ bytes "{'type':'output'";
   bytes ",'content':'hi'}" ++ [x0d; x0a]].

Definition exited_child : ChildProcess :=
  mkChild (Some 4242) false false false [].

Definition resume_options : ClaudeExecuteOptions :=
  mkOptions (js "echo hi") (Some (js "claude-1")) (Some 0) None.

(** A line that is not JSON, then a valid last line without its end. *)
Definition garbled_then_unterminated : list (list byte) :=
  [bytes "oops" ++ [x0a] ++ output_line].

(** Two whole runs of the process.  The first writes an output line and a
    successful [complete] line and exits with code 0; the second writes an
    output line only and exits with code 1. *)
Definition success_line : list byte :=
  bytes "{'type':'complete','taskId':'t1','status':'success'}".

Definition successful_run : list Occurrence :=
  map of_process
    (writes [output_line ++ [x0a] ++ success_line ++ [x0a]] (Some 0)).

Definition failed_run : list Occurrence :=
  map of_process (writes [output_line ++ [x0a]] (Some 1)).

End ClaudeService.

Import ClaudeService.

(** ** Ref helpers  (packages/effect-utils/src/ref-helpers.ts) *)

Module RefHelpers.

(** [updateAndGet]: [Ref.update], then [Ref.get]. *)
Definition updateAndGet {St E} (f : St -> St) : Eff St E St :=
  Ref_update f (Ref_get (fun a => succeed a)).

(** [getAndUpdate]: [Ref.get], then [Ref.update]. *)
Definition getAndUpdate {St E} (f : St -> St) : Eff St E St :=
  Ref_get (fun current => Ref_update f (succeed current)).

(** Where a fiber running one of the two helpers stands, with the function
    it has still to apply to the cell, if any. *)
Inductive stage {St E} : option (St -> St) -> Eff St E St -> Prop :=
| stage_get f : stage (Some f) (getAndUpdate f)
| stage_read f current : stage (Some f) (Ref_update f (succeed current))
| stage_update f : stage (Some f) (updateAndGet f)
| stage_updated : stage None (Ref_get (fun a => succeed a))
| stage_done value : stage None (succeed value).

(** Applying functions to a value one after the other. *)
Definition applyAll {St} (fs : list (St -> St)) (s : St) : St :=
  fold_left (fun a f => f a) fs s.

(** Two fibers on a counter: one reads and then adds 1, the other doubles
    and then reads. *)
Definition two_helpers : list (Eff Z unit Z) :=
  [getAndUpdate (Z.add 1); updateAndGet (Z.mul 2)].

End RefHelpers.

(** ** Configuration  (config.service.ts of cc-headless-svc, and
    packages/config/src/env-validator.ts) *)

Module Config.

(** [process.env]: the variables that are set, with their values. *)
Abbreviation Env := (gmap string jsstring).

(** [value || fallback] on an optional string: an unset or empty value
    gives way. *)
Definition orElse (value : option jsstring) (fallback : jsstring)
  : jsstring :=
  match value with
  | Some v => if truthy v then v else fallback
  | None => fallback
  end.

Definition truthy_value (value : option jsstring) : bool :=
  match value with Some v => truthy v | None => false end.

(** *** [parseInt(text, 10)]

    Leading white space is skipped, a sign is read, then the longest run
    of decimal digits; when there is no digit the result is [NaN], here
    [None].  The result is the integer the digits denote, which a
    JavaScript number holds exactly below 2^53. *)
Definition isDigit (c : N) : bool := ((48 <=? c) && (c <=? 57))%N.

Fixpoint digitsValue (acc : Z) (s : jsstring) : Z :=
  match s with
  | c :: s' =>
      if isDigit c then digitsValue (10 * acc + (Z.of_N c - 48)) s' else acc
  | [] => acc
  end.

Definition unsigned (s : jsstring) : option Z :=
  match s with
  | c :: _ => if isDigit c then Some (digitsValue 0 s) else None
  | [] => None
  end.

Definition parseInt (text : jsstring) : option Z :=
  match trimStart text with
  | 45%N :: s => Z.opp <$> unsigned s
  | 43%N :: s => unsigned s
  | s => unsigned s
  end.

(** [String(n)] for an integer [n]: its decimal digits, with a minus sign
    when negative.  (JavaScript switches to exponent notation from 10^21
    on; the statements that use this stay below.) *)
Fixpoint decimal (fuel : nat) (n : Z) : jsstring :=
  match fuel with
  | O => []
  | S fuel' =>
      if n <? 10 then [Z.to_N (48 + n)]
      else decimal fuel' (n / 10) ++ [Z.to_N (48 + n mod 10)]
  end.

Definition Number_toString (n : Z) : jsstring :=
  if n <? 0 then 45%N :: decimal (S (Z.to_nat (Z.log2 (- n)))) (- n)
  else decimal (S (Z.to_nat (Z.log2 n))) n.

(** *** [ConfigService] *)

Inductive ConfigError : Type :=
| MissingEnvironmentVariableError (variableName : string)
| ConfigurationError (message : jsstring) (field : string).

(** The shape the numeric getters share: the parsed value, or the default
    when it is [NaN] or below 1. *)
Definition atLeastOne (text : jsstring) (fallback : Z) : Z :=
  match parseInt text with
  | Some n => if n <? 1 then fallback else n
  | None => fallback
  end.

Definition validPort (text : jsstring) : option Z :=
  match parseInt text with
  | Some portNum =>
      if (portNum <? 1) || (portNum >? 65535) then None else Some portNum
  | None => None
  end.

Definition getServerPort (env : Env) : Z :=
  let port := orElse (env !! "PORT") (js "3002") in
  match validPort port with
  | Some portNum => portNum
  | None => 3002
  end.

Definition getAnthropicApiKey (env : Env) : Exit ConfigError jsstring :=
  match env !! "ANTHROPIC_API_KEY" with
  | Some apiKey =>
      if truthy apiKey then Success apiKey
      else Failure (MissingEnvironmentVariableError "ANTHROPIC_API_KEY")
  | None => Failure (MissingEnvironmentVariableError "ANTHROPIC_API_KEY")
  end.

Definition getMaxMcpTokens (env : Env) : Z :=
  atLeastOne (orElse (env !! "MAX_MCP_OUTPUT_TOKENS") (js "50000")) 50000.

Definition getSessionTimeout (env : Env) : Z :=
  atLeastOne (orElse (env !! "SESSION_TIMEOUT_MS") (js "3600000")) 3600000.

Definition getTaskTimeout (env : Env) : Z :=
  atLeastOne (orElse (env !! "TASK_TIMEOUT_MS") (js "300000")) 300000.

Definition getMaxQueueSize (env : Env) : Z :=
  atLeastOne (orElse (env !! "MAX_QUEUE_SIZE") (js "100")) 100.

Definition getConcurrentTaskLimit (env : Env) : Z :=
  atLeastOne (orElse (env !! "CONCURRENT_TASK_LIMIT") (js "5")) 5.

(** [validate]. *)
Definition validate (env : Env) : Exit ConfigError unit :=
  if negb (truthy_value (env !! "ANTHROPIC_API_KEY")) then
    Failure
      (ConfigurationError
         (js "ANTHROPIC_API_KEY environment variable is required")
         "ANTHROPIC_API_KEY")
  else
    match env !! "PORT" with
    | Some port =>
        if truthy port then
          match validPort port with
          | Some _ => Success tt
          | None =>
              Failure
                (ConfigurationError
                   (js "Invalid PORT value: " ++ port
                    ++ js ". Must be between 1 and 65535")
                   "PORT")
          end
        else Success tt
    | None => Success tt
    end.

(** *** env-validator.ts *)

Record ValidationError : Type := mkValidationError {
  v_message : jsstring;
  v_field : string;
  v_value : option jsstring
}.

Definition parsePort (env : Env) (envVar : string) (defaultPort : Z)
  : Exit ValidationError Z :=
  let port := orElse (env !! envVar) (Number_toString defaultPort) in
  match validPort port with
  | Some portNum => Success portNum
  | None =>
      if truthy_value (env !! envVar) then
        Failure
          (mkValidationError
             (js "Invalid port value for " ++ js envVar ++ js ": " ++ port
              ++ js ". Must be between 1 and 65535")
             envVar (Some port))
      else Success defaultPort
  end.

Definition parsePositiveInt (env : Env) (envVar : string) (defaultValue : Z)
  : Exit ValidationError Z :=
  let value := orElse (env !! envVar) (Number_toString defaultValue) in
  match parseInt value with
  | Some num =>
      if num <? 1 then
        if truthy_value (env !! envVar) then
          Failure
            (mkValidationError
               (js "Invalid positive integer for " ++ js envVar ++ js ": "
                ++ value ++ js ". Must be greater than 0")
               envVar (Some value))
        else Success defaultValue
      else Success num
  | None =>
      if truthy_value (env !! envVar) then
        Failure
          (mkValidationError
             (js "Invalid positive integer for " ++ js envVar ++ js ": "
              ++ value ++ js ". Must be greater than 0")
             envVar (Some value))
      else Success defaultValue
  end.

Definition requireEnvVar (env : Env) (name : string)
  : Exit ValidationError jsstring :=
  match env !! name with
  | Some value =>
      if truthy value then Success value
      else Failure
             (mkValidationError
                (js "Missing required environment variable: " ++ js name)
                name None)
  | None =>
      Failure
        (mkValidationError
           (js "Missing required environment variable: " ++ js name)
           name None)
  end.

Definition getEnvVar (env : Env) (name : string) (defaultValue : jsstring)
  : jsstring :=
  orElse (env !! name) defaultValue.

(** Example environments. *)
Definition env_ok : Env :=
  {[ "ANTHROPIC_API_KEY" := js "sk-test"; "PORT" := js " 8080/tcp" ]}.

Definition env_bad_port : Env :=
  {[ "ANTHROPIC_API_KEY" := js "sk-test"; "PORT" := js "http" ]}.

End Config.

(** * Properties *)

(** ** Session store *)

Module SessionManagerSpec.
Import SessionManager.

Section Store.

Variable sessionTimeout : Z.

Implicit Types (m : gmap string SessionState) (s : SessionState).
Implicit Types (sid : string) (now : Z).

Lemma getSession_absent now sid m :
  m !! sid = None ->
  run (getSession now sid) m = (Failure (SessionNotFoundError sid), m).
Proof. intros H. cbn. now rewrite H. Qed.

Lemma getSession_expired now sid m s :
  m !! sid = Some s -> now > s.(expiresAt) ->
  run (getSession now sid) m
  = (Failure (SessionExpiredError sid s.(expiresAt)), delete sid m).
Proof.
  intros H Hexp. cbn. rewrite H.
  destruct (Z.gtb_spec now (expiresAt s)); [reflexivity | lia].
Qed.

Lemma getSession_live now sid m s :
  m !! sid = Some s -> now <= s.(expiresAt) ->
  run (getSession now sid) m
  = (Success (view s now), <[sid := touched s now]> m).
Proof.
  intros H Hlive. cbn. rewrite H.
  destruct (Z.gtb_spec now (expiresAt s)); [lia | reflexivity].
Qed.

(** C3.  [getSession] on an id that is not in the table fails with
    [SessionNotFoundError].  On an id whose record has [now > expiresAt] it
    fails with [SessionExpiredError] and removes the record, so that a
    second [getSession] on the same id, at any later reading of the clock,
    fails with [SessionNotFoundError].  Otherwise it stores the record with
    [lastAccessedAt = now] and returns the session with [updatedAt = now]. *)
Theorem getSession_outcomes now sid m :
  (m !! sid = None ->
   run (getSession now sid) m = (Failure (SessionNotFoundError sid), m))
  /\ (forall s, m !! sid = Some s -> now > s.(expiresAt) ->
      run (getSession now sid) m
      = (Failure (SessionExpiredError sid s.(expiresAt)), delete sid m)
      /\ delete sid m !! sid = None
      /\ forall now',
          run (getSession now' sid) (snd (run (getSession now sid) m))
          = (Failure (SessionNotFoundError sid), delete sid m))
  /\ (forall s, m !! sid = Some s -> now <= s.(expiresAt) ->
      run (getSession now sid) m
      = (Success (view s now), <[sid := touched s now]> m)
      /\ <[sid := touched s now]> m !! sid = Some (touched s now)
      /\ (touched s now).(lastAccessedAt) = now
      /\ (view s now).(s_updatedAt) = now).
Proof.
  split; [apply getSession_absent | split].
  - intros s Hs Hexp.
    rewrite (getSession_expired now sid m s Hs Hexp).
    split; [reflexivity | split; [apply lookup_delete_eq |]].
    intros now'. apply getSession_absent, lookup_delete_eq.
  - intros s Hs Hlive.
    rewrite (getSession_live now sid m s Hs Hlive).
    split; [reflexivity | split; [apply lookup_insert_eq | split; reflexivity]].
Qed.

(** C7.  [updateSession] on an absent id fails with
    [SessionNotFoundError] and leaves the table alone.  On a present id it
    stores a record whose [sessionId], [userId] and [createdAt] are those of
    the old record whatever [updates] supplies for them, whose
    [lastAccessedAt] is the current time, and whose other fields are the
    supplied value when one is supplied and the old value otherwise. *)
Theorem updateSession_merge now sid (updates : PartialSessionState) m :
  (m !! sid = None ->
   run (updateSession now sid updates) m
   = (Failure (SessionNotFoundError sid), m))
  /\ (forall s, m !! sid = Some s ->
      exists s',
        run (updateSession now sid updates) m
        = (Success tt, <[sid := s']> m)
        /\ <[sid := s']> m !! sid = Some s'
        /\ s'.(sessionId) = s.(sessionId)
        /\ s'.(userId) = s.(userId)
        /\ s'.(createdAt) = s.(createdAt)
        /\ s'.(lastAccessedAt) = now
        /\ s'.(expiresAt) = default s.(expiresAt) updates.(u_expiresAt)
        /\ s'.(claudeSessionId)
           = default s.(claudeSessionId) updates.(u_claudeSessionId)
        /\ s'.(taskCount) = default s.(taskCount) updates.(u_taskCount)
        /\ s'.(metadata) = default s.(metadata) updates.(u_metadata)).
Proof.
  split.
  - intros H. cbn. now rewrite H.
  - intros s H. exists (merged s updates now).
    cbn. rewrite H. cbn.
    split; [reflexivity |].
    split; [apply lookup_insert_eq |].
    repeat split.
Qed.


Lemma bump_absent now sid m : m !! sid = None -> bump now sid m = m.
Proof. intros H. unfold bump. now rewrite H. Qed.

Lemma bump_present now sid m s :
  m !! sid = Some s ->
  bump now sid m
  = <[sid := mkSessionState s.(sessionId) s.(userId) s.(createdAt) now
               s.(expiresAt) s.(claudeSessionId) (s.(taskCount) + 1)
               s.(metadata)]> m.
Proof. intros H. unfold bump. now rewrite H. Qed.

Lemma taskCountOf_bump now sid m c :
  taskCountOf sid m = Some c -> taskCountOf sid (bump now sid m) = Some (c + 1).
Proof.
  unfold taskCountOf. destruct (m !! sid) as [s|] eqn:H; [| discriminate].
  intros [= <-]. rewrite (bump_present now sid m s H), lookup_insert_eq.
  reflexivity.
Qed.

(** C10.  [incrementTaskCount] is one [Ref.update] and nothing else.  On an
    id that is not in the table it succeeds and the table is unchanged; on
    a present id the stored [taskCount] grows by exactly 1 (and
    [lastAccessedAt] becomes the current time), the other fields and the
    other entries staying as they were.  The count is a JavaScript number:
    the statement is for the counts whose successor a double holds
    exactly, from -2^53 to 2^53 - 1. *)
Theorem incrementTaskCount_outcomes now sid m :
  step (incrementTaskCount now sid) m = Some (succeed tt, bump now sid m)
  /\ (m !! sid = None ->
      run (incrementTaskCount now sid) m = (Success tt, m))
  /\ (forall s, m !! sid = Some s -> exact_increment s.(taskCount) ->
      exists s',
        run (incrementTaskCount now sid) m = (Success tt, <[sid := s']> m)
        /\ s'.(taskCount) = s.(taskCount) + 1
        /\ s' = mkSessionState s.(sessionId) s.(userId) s.(createdAt) now
                  s.(expiresAt) s.(claudeSessionId) (s.(taskCount) + 1)
                  s.(metadata)).
Proof.
  split; [reflexivity | split].
  - intros H. cbn. now rewrite (bump_absent now sid m H).
  - intros s H _. eexists. cbn. rewrite (bump_present now sid m s H).
    repeat split.
Qed.

End Store.

(** *** Fibers sharing the table *)

Section Fibers.

Implicit Types (m : gmap string SessionState) (sid : string).

Lemma pending_cons {St E A} (p : Eff St E A) fibers :
  pending (p :: fibers)
  = ((if finished p then 0 else 1) + pending fibers)%nat.
Proof.
  unfold pending. rewrite filter_cons.
  destruct (finished p); case_decide; simpl; congruence.
Qed.

Lemma pending_finish {St E A} (fibers : list (Eff St E A)) i p q :
  fibers !! i = Some p -> finished p = false -> finished q = true ->
  S (pending (<[i := q]> fibers)) = pending fibers.
Proof.
  revert i. induction fibers as [| a fibers IH]; intros [| i] Hi Hp Hq;
    try discriminate.
  - injection Hi as ->.
    change (<[0%nat := q]> (p :: fibers)) with (q :: fibers).
    rewrite !pending_cons, Hp, Hq. reflexivity.
  - change (<[S i := q]> (a :: fibers)) with (a :: <[i := q]> fibers).
    rewrite !pending_cons.
    cbn in Hi. pose proof (IH i Hi Hp Hq). destruct (finished a); lia.
Qed.

Lemma incrementing_insert sid (fibers : list (SessionEff unit)) i :
  Forall (incrementing sid) fibers ->
  Forall (incrementing sid) (<[i := succeed tt]> fibers).
Proof.
  intros H. apply Forall_insert; [exact H | now left].
Qed.

(** Increments alone never interfere: at every point of every schedule the
    stored count plus the increments still to come is what it was at the
    start. *)
Lemma increments_conserved sid schedule :
  forall (fibers : list (SessionEff unit)) m c,
    Forall (incrementing sid) fibers ->
    taskCountOf sid m = Some c ->
    Forall (incrementing sid) (fst (interleave schedule fibers m))
    /\ taskCountOf sid (snd (interleave schedule fibers m))
       = Some (c + Z.of_nat (pending fibers)
               - Z.of_nat (pending (fst (interleave schedule fibers m)))).
Proof.
  induction schedule as [| i schedule IH]; intros fibers m c Hall Hc.
  - cbn [interleave fst snd]. split; [exact Hall |]. rewrite Hc. f_equal. lia.
  - cbn [interleave].
    destruct (fibers !! i) as [p|] eqn:Hi; [| now apply IH].
    pose proof (proj1 (Forall_lookup _ _) Hall i p Hi) as [-> | [now ->]].
    + cbn [step]. now apply IH.
    + cbn [step incrementTaskCount].
      destruct (IH (<[i := succeed tt]> fibers) (bump now sid m) (c + 1)
                  (incrementing_insert sid fibers i Hall)
                  (taskCountOf_bump now sid m c Hc)) as [Hall' Hc'].
      split; [exact Hall' |]. rewrite Hc'. f_equal.
      pose proof (pending_finish fibers i
                    (incrementTaskCount now sid) (succeed tt) Hi
                    eq_refl eq_refl).
      lia.
Qed.

Lemma pending_increments sid (clocks : list Z) :
  pending (map (fun now => incrementTaskCount now sid) clocks)
  = length clocks.
Proof.
  induction clocks as [| now clocks IH]; [reflexivity |].
  cbn [map]. rewrite pending_cons, IH. reflexivity.
Qed.

(** N concurrent increments of a session whose count is [v] end, under
    every schedule that lets all of them finish, with [v + N], as long as
    the counts passed through stay where a double adds 1 exactly: from
    -2^53 up to 2^53. *)
Lemma concurrent_increments sid (clocks : list Z) schedule m v :
  taskCountOf sid m = Some v ->
  - MAX_SAFE_INTEGER - 1 <= v ->
  v + Z.of_nat (length clocks) <= MAX_SAFE_INTEGER + 1 ->
  let fibers := map (fun now => incrementTaskCount now sid) clocks in
  pending (fst (interleave schedule fibers m)) = 0%nat ->
  taskCountOf sid (snd (interleave schedule fibers m))
  = Some (v + Z.of_nat (length clocks)).
Proof.
  intros Hv _ _ fibers Hdone.
  assert (Hall : Forall (incrementing sid) fibers).
  { apply Forall_forall. intros p Hp. apply list_elem_of_In in Hp.
    apply in_map_iff in Hp. destruct Hp as [now [<- _]].
    right. now exists now. }
  destruct (increments_conserved sid schedule fibers m v Hall Hv) as [_ H].
  rewrite H, Hdone. unfold fibers. rewrite pending_increments.
  f_equal. lia.
Qed.

End Fibers.

(** C4, on the code.  [updateSession] reads the table with [Ref.get] and
    writes the record it built from that reading with a later
    [Ref.update].  When an [incrementTaskCount] runs between the two, its
    increment is overwritten: the count stays at 3 although both fibers
    have finished, where either order of the two calls gives 4.  Two
    [updateSession] calls interleaved the same way keep only the second
    one's field.  Neither pool is linearizable. *)
Theorem updateSession_loses_concurrent_updates :
  (pending (fst (interleave [0; 1; 0]%nat update_and_increment demo_sessions))
   = 0%nat
   /\ taskCountOf "s1"
        (snd (interleave [0; 1; 0]%nat update_and_increment demo_sessions))
      = Some 3
   /\ taskCountOf "s1" (sequential update_and_increment demo_sessions)
      = Some 4
   /\ taskCountOf "s1" (sequential (rev update_and_increment) demo_sessions)
      = Some 4
   /\ ~ linearizable update_and_increment demo_sessions)
  /\ (pending (fst (interleave [0; 1; 0; 1]%nat two_updates demo_sessions))
      = 0%nat
      /\ claudeSessionId
           <$> snd (interleave [0; 1; 0; 1]%nat two_updates demo_sessions)
               !! "s1"
         = Some None
      /\ claudeSessionId <$> sequential two_updates demo_sessions !! "s1"
         = Some (Some "claude-1")
      /\ claudeSessionId
           <$> sequential (rev two_updates) demo_sessions !! "s1"
         = Some (Some "claude-1")
      /\ ~ linearizable two_updates demo_sessions).
Proof.
  split.
  - split; [reflexivity |]. split; [vm_compute; reflexivity |].
    split; [vm_compute; reflexivity |]. split; [vm_compute; reflexivity |].
    intros Hlin. destruct (Hlin [0; 1; 0]%nat eq_refl) as [order [Hperm Heq]].
    assert (Hc : taskCountOf "s1" (sequential order demo_sessions) = Some 3)
      by (rewrite <- Heq; vm_compute; reflexivity).
    symmetry in Hperm.
    apply Permutation_length_2_inv in Hperm as [-> | ->];
      vm_compute in Hc; discriminate.
  - split; [reflexivity |]. split; [vm_compute; reflexivity |].
    split; [vm_compute; reflexivity |]. split; [vm_compute; reflexivity |].
    intros Hlin.
    destruct (Hlin [0; 1; 0; 1]%nat eq_refl) as [order [Hperm Heq]].
    assert (Hc : claudeSessionId <$> sequential order demo_sessions !! "s1"
                 = Some None)
      by (rewrite <- Heq; vm_compute; reflexivity).
    symmetry in Hperm.
    apply Permutation_length_2_inv in Hperm as [-> | ->];
      vm_compute in Hc; discriminate.
Qed.

(** *** The theorems at work on the example table *)

Lemma getSession_outcomes_witness :
  run (getSession 50 "nobody") demo_sessions
  = (Failure (SessionNotFoundError "nobody"), demo_sessions)
  /\ (run (getSession 101 "s1") demo_sessions
      = (Failure (SessionExpiredError "s1" 100), delete "s1" demo_sessions)
      /\ run (getSession 102 "s1")
           (snd (run (getSession 101 "s1") demo_sessions))
         = (Failure (SessionNotFoundError "s1"), delete "s1" demo_sessions))
  /\ run (getSession 100 "s1") demo_sessions
     = (Success (view demo_session 100),
        <["s1" := touched demo_session 100]> demo_sessions).
Proof.
  split.
  { apply (getSession_outcomes 50 "nobody" demo_sessions). reflexivity. }
  split.
  { destruct (getSession_outcomes 101 "s1" demo_sessions) as (_ & H & _).
    destruct (H demo_session eq_refl ltac:(simpl; lia)) as (H1 & _ & H2).
    split; [exact H1 | exact (H2 102)]. }
  destruct (getSession_outcomes 100 "s1" demo_sessions) as (_ & _ & H).
  destruct (H demo_session eq_refl ltac:(simpl; lia)) as (H1 & _).
  exact H1.
Defined.

Lemma updateSession_merge_witness :
  run (updateSession 60 "nobody" overwrite_all) demo_sessions
  = (Failure (SessionNotFoundError "nobody"), demo_sessions)
  /\ exists s',
      run (updateSession 60 "s1" overwrite_all) demo_sessions
      = (Success tt, <["s1" := s']> demo_sessions)
      /\ s' = mkSessionState "s1" "alice" 10 60 500 (Some "claude-1") 7 None.
Proof.
  split.
  { apply (updateSession_merge 60 "nobody" overwrite_all demo_sessions).
    reflexivity. }
  destruct (updateSession_merge 60 "s1" overwrite_all demo_sessions)
    as (_ & H).
  destruct (H demo_session eq_refl)
    as (s' & Hrun & _ & Hid & Hu & Hc & Hl & He & Hcs & Ht & Hm).
  exists s'. split; [exact Hrun |].
  destruct s'; simpl in *; subst; reflexivity.
Defined.



Lemma incrementTaskCount_outcomes_witness :
  run (incrementTaskCount 60 "nobody") demo_sessions
  = (Success tt, demo_sessions)
  /\ exists s',
      run (incrementTaskCount 60 "s1") demo_sessions
      = (Success tt, <["s1" := s']> demo_sessions)
      /\ s'.(taskCount) = 4.
Proof.
  split.
  { apply (incrementTaskCount_outcomes 60 "nobody" demo_sessions).
    reflexivity. }
  destruct (incrementTaskCount_outcomes 60 "s1" demo_sessions)
    as (_ & _ & H).
  destruct (H demo_session eq_refl
              ltac:(unfold exact_increment, MAX_SAFE_INTEGER; simpl; lia))
    as (s' & Hrun & Hcount & _).
  exists s'. split; [exact Hrun | exact Hcount].
Defined.

End SessionManagerSpec.


(** ** Stream decoder *)

Module ClaudeServiceSpec.

Section Lines.

(** [split] and concatenation: the first part's complete lines are
    settled, its last piece is glued to what follows. *)

Lemma split_nonempty sep (s : jsstring) : split sep s <> [].
Proof.
  destruct s as [| c s]; simpl; [discriminate |].
  destruct (c =? sep)%N; [discriminate |].
  destruct (split sep s); discriminate.
Qed.

Lemma last_app_nonempty {A} (l l' : list A) d :
  l' <> [] -> List.last (l ++ l') d = List.last l' d.
Proof.
  intros Hne. induction l as [| a l IH]; [reflexivity |].
  simpl. destruct (l ++ l') eqn:E; [| exact IH].
  apply app_eq_nil in E. destruct E; contradiction.
Qed.

Lemma split_app sep (a b : jsstring) :
  split sep (a ++ b)
  = removelast (split sep a) ++ split sep (List.last (split sep a) [] ++ b).
Proof.
  induction a as [| c a IH]; [reflexivity |].
  simpl. destruct (c =? sep)%N eqn:Ec.
  - pose proof (split_nonempty sep a) as Hne.
    destruct (split sep a) as [| l ls] eqn:E; [contradiction |].
    rewrite IH. reflexivity.
  - rewrite IH. pose proof (split_nonempty sep a) as Hne.
    destruct (split sep a) as [| l ls]; [contradiction |].
    destruct ls as [| l' ls].
    + simpl. rewrite Ec. reflexivity.
    + reflexivity.
Qed.

Lemma split_no_sep sep (s : jsstring) :
  ~ In sep s -> split sep s = [s].
Proof.
  induction s as [| c s IH]; intros Hnot; [reflexivity |].
  simpl. destruct (N.eqb_spec c sep) as [-> | _].
  - exfalso. apply Hnot. now left.
  - rewrite IH; [reflexivity |]. intros H. apply Hnot. now right.
Qed.

Lemma last_split_no_sep sep (s : jsstring) :
  ~ In sep (List.last (split sep s) []).
Proof.
  induction s as [| c s IH]; [intros [] |].
  simpl. destruct (N.eqb_spec c sep) as [-> | Hne].
  - pose proof (split_nonempty sep s).
    destruct (split sep s); [contradiction | exact IH].
  - pose proof (split_nonempty sep s) as H.
    destruct (split sep s) as [| l ls]; [contradiction |].
    destruct ls as [| l' ls].
    + simpl in *. intros [-> | Hin]; [now apply Hne | now apply IH].
    + exact IH.
Qed.

End Lines.

Section Decoding.

Variable toString : list byte -> jsstring.
Variable JSON_parse : jsstring -> option ClaudeOutputEvent.

Local Abbreviation decode_line := (decode_line JSON_parse).
Local Abbreviation on_close := (on_close JSON_parse).
Local Abbreviation emitted := (emitted toString JSON_parse).
Local Abbreviation parseOutputStream := (parseOutputStream toString JSON_parse).
Local Abbreviation text := (text toString).
Local Abbreviation decodable := (decodable JSON_parse).
Local Abbreviation malformed := (malformed JSON_parse).
Local Abbreviation valid_events := (valid_events JSON_parse).

Lemma complete_lines_app (a b : jsstring) :
  complete_lines (a ++ b)
  = complete_lines a ++ complete_lines (leftover a ++ b).
Proof.
  unfold complete_lines, leftover. rewrite split_app.
  apply removelast_app, split_nonempty.
Qed.

Lemma leftover_app (a b : jsstring) :
  leftover (a ++ b) = leftover (leftover a ++ b).
Proof.
  unfold leftover. rewrite split_app at 1.
  apply last_app_nonempty, split_nonempty.
Qed.

(** The callback over a run of [data] events: it has emitted for every
    line completed so far and holds what follows the last newline. *)
Lemma emitted_data chunks :
  forall buffer rest,
    ~ In LF buffer ->
    emitted buffer (map stdout_data chunks ++ rest)
    = flat_map decode_line (complete_lines (buffer ++ text chunks))
      ++ emitted (leftover (buffer ++ text chunks)) rest.
Proof.
  induction chunks as [| chunk chunks IH]; intros buffer rest Hbuf.
  - unfold complete_lines, leftover, ClaudeService.text. simpl.
    rewrite app_nil_r, (split_no_sep LF buffer Hbuf). reflexivity.
  - change (text (chunk :: chunks)) with (toString chunk ++ text chunks).
    rewrite app_assoc.
    rewrite (complete_lines_app (buffer ++ toString chunk) (text chunks)).
    rewrite (leftover_app (buffer ++ toString chunk) (text chunks)).
    rewrite flat_map_app.
    cbn [map app ClaudeService.emitted handle on_data].
    fold (leftover (buffer ++ toString chunk)).
    fold (complete_lines (buffer ++ toString chunk)).
    rewrite <- app_assoc. f_equal.
    apply IH, last_split_no_sep.
Qed.

Lemma emitted_writes chunks code :
  emitted [] (writes chunks code)
  = flat_map decode_line (complete_lines (text chunks))
    ++ on_close (leftover (text chunks)).
Proof.
  unfold writes. rewrite emitted_data by (intros []).
  simpl. now rewrite app_nil_r.
Qed.

(** The stream is a function of the decoded text alone. *)
Lemma parseOutputStream_text chunks code :
  parseOutputStream (writes chunks code)
  = deliver (flat_map decode_line (complete_lines (text chunks))
             ++ on_close (leftover (text chunks))).
Proof. unfold ClaudeService.parseOutputStream. now rewrite emitted_writes. Qed.

(** Cutting the decoded text differently changes nothing. *)
Lemma same_text_same_stream chunks1 chunks2 code :
  text chunks1 = text chunks2 ->
  parseOutputStream (writes chunks1 code)
  = parseOutputStream (writes chunks2 code).
Proof. intros H. now rewrite !parseOutputStream_text, H. Qed.

Lemma deliver_singles events emits :
  deliver (map emit_single events ++ emits)
  = (events ++ fst (deliver emits), snd (deliver emits)).
Proof.
  induction events as [| e events IH]; simpl.
  - now destruct (deliver emits).
  - rewrite IH. reflexivity.
Qed.

Lemma decode_line_decodable line :
  decodable line = true ->
  decode_line line = map emit_single (valid_events [line]).
Proof.
  unfold ClaudeService.decodable, ClaudeService.decode_line,
    ClaudeService.valid_events.
  simpl. destruct (truthy (trim line)); simpl; [| reflexivity].
  destruct (JSON_parse (trim line)); [reflexivity | discriminate].
Qed.

Lemma decode_line_malformed line :
  malformed line = true ->
  decode_line line = [emit_fail (ClaudeOutputParseError (trim line))].
Proof.
  unfold ClaudeService.malformed, ClaudeService.decodable,
    ClaudeService.decode_line.
  destruct (truthy (trim line)); simpl; [| discriminate].
  destruct (JSON_parse (trim line)); [discriminate | reflexivity].
Qed.

Lemma valid_events_app lines1 lines2 :
  valid_events (lines1 ++ lines2)
  = valid_events lines1 ++ valid_events lines2.
Proof. apply flat_map_app. Qed.

Lemma decode_lines_decodable lines :
  forallb decodable lines = true ->
  flat_map decode_line lines = map emit_single (valid_events lines).
Proof.
  induction lines as [| line lines IH]; [reflexivity |].
  intros H. apply andb_prop in H as [Hline Hlines].
  change (line :: lines) with ([line] ++ lines).
  rewrite flat_map_app, valid_events_app, map_app, <- (IH Hlines).
  f_equal. simpl. rewrite app_nil_r. now apply decode_line_decodable.
Qed.

(** Lines that contain a malformed one split at the first such line. *)
Lemma first_malformed lines :
  existsb malformed lines = true ->
  exists good bad rest,
    lines = good ++ bad :: rest
    /\ forallb decodable good = true
    /\ malformed bad = true.
Proof.
  induction lines as [| line lines IH]; [discriminate |].
  cbn [existsb]. destruct (malformed line) eqn:Hline.
  - intros _. exists [], line, lines. repeat split. exact Hline.
  - intros H. destruct (IH H) as (good & bad & rest & -> & Hgood & Hbad).
    exists (line :: good), bad, rest. repeat split; [| exact Hbad].
    cbn [forallb]. rewrite Hgood.
    unfold ClaudeService.malformed in Hline.
    now destruct (decodable line).
Qed.

(** C1, as the code has it.  The callback answers a malformed line with
    exactly one [emit.fail] carrying the trimmed line and goes on
    decoding the lines after it; but [emit.fail] terminates the stream:
    the consumer receives the events of the lines before the first
    malformed one, then that failure, and nothing of what follows. *)
Theorem decode_failure_ends_stream chunks code good bad rest :
  complete_lines (text chunks) = good ++ bad :: rest ->
  forallb decodable good = true ->
  malformed bad = true ->
  emitted [] (writes chunks code)
  = map emit_single (valid_events good)
    ++ emit_fail (ClaudeOutputParseError (trim bad))
    :: flat_map decode_line rest ++ on_close (leftover (text chunks))
  /\ parseOutputStream (writes chunks code)
     = (valid_events good, Failed (ClaudeOutputParseError (trim bad))).
Proof.
  intros Hlines Hgood Hbad.
  assert (Hemit : emitted [] (writes chunks code)
    = map emit_single (valid_events good)
      ++ emit_fail (ClaudeOutputParseError (trim bad))
      :: flat_map decode_line rest ++ on_close (leftover (text chunks))).
  { rewrite emitted_writes, Hlines, flat_map_app.
    rewrite (decode_lines_decodable good Hgood). cbn [flat_map].
    rewrite (decode_line_malformed bad Hbad), <- !app_assoc. reflexivity. }
  split; [exact Hemit |].
  unfold ClaudeService.parseOutputStream. rewrite Hemit, deliver_singles.
  simpl. now rewrite app_nil_r.
Qed.

(** C9, as the code has it.  When the process closes with something other
    than white space after the last newline, the callback tries
    [JSON.parse] on it once: on success it emits that event and then the
    end, on failure only the end.  What the consumer sees of it depends on
    the lines before.  If no complete line was malformed, the consumer
    receives the events of the lines, then that last event if there is
    one, and the stream ends normally.  If one was, the stream has failed
    at the first such line: the last event is not delivered and the stream
    does not end normally. *)
Theorem leftover_decoded_on_close chunks code :
  truthy (trim (leftover (text chunks))) = true ->
  on_close (leftover (text chunks))
  = match JSON_parse (trim (leftover (text chunks))) with
    | Some event => [emit_single event; emit_end]
    | None => [emit_end]
    end
  /\ emitted [] (writes chunks code)
     = flat_map decode_line (complete_lines (text chunks))
       ++ on_close (leftover (text chunks))
  /\ (forallb decodable (complete_lines (text chunks)) = true ->
      parseOutputStream (writes chunks code)
      = (valid_events (complete_lines (text chunks))
         ++ match JSON_parse (trim (leftover (text chunks))) with
            | Some event => [event]
            | None => []
            end,
         Ended))
  /\ (forall good bad rest,
      complete_lines (text chunks) = good ++ bad :: rest ->
      forallb decodable good = true ->
      malformed bad = true ->
      parseOutputStream (writes chunks code)
      = (valid_events good, Failed (ClaudeOutputParseError (trim bad)))).
Proof.
  intros Hleft.
  assert (Hclose : on_close (leftover (text chunks))
    = match JSON_parse (trim (leftover (text chunks))) with
      | Some event => [emit_single event; emit_end]
      | None => [emit_end]
      end).
  { unfold ClaudeService.on_close. rewrite Hleft.
    now destruct (JSON_parse (trim (leftover (text chunks)))). }
  split; [exact Hclose |]. split; [apply emitted_writes |].
  split.
  - intros Hlines. rewrite parseOutputStream_text.
    rewrite (decode_lines_decodable _ Hlines), deliver_singles, Hclose.
    now destruct (JSON_parse (trim (leftover (text chunks)))).
  - intros good bad rest Hlines Hgood Hbad.
    rewrite parseOutputStream_text, Hlines, flat_map_app.
    rewrite (decode_lines_decodable good Hgood). cbn [flat_map].
    rewrite (decode_line_malformed bad Hbad), <- !app_assoc.
    rewrite deliver_singles. simpl. now rewrite app_nil_r.
Qed.

End Decoding.

(** *** The decoder on Node's [Buffer.toString] *)

Section Utf8.

Lemma utf8_decode_ascii (a rest : list N) :
  Forall (fun b => (b <= 127)%N) a ->
  utf8_decode None (a ++ rest) = a ++ utf8_decode None rest.
Proof.
  induction 1 as [| b a Hb _ IH]; [reflexivity |].
  cbn [app utf8_decode]. unfold utf8_lead.
  destruct (N.leb_spec b 127) as [_ | Hgt]; [| lia].
  cbn [app]. now rewrite IH.
Qed.

Lemma utf16_ascii (a : list N) :
  Forall (fun b => (b <= 127)%N) a -> flat_map utf16 a = a.
Proof.
  induction 1 as [| b a Hb _ IH]; [reflexivity |].
  cbn [flat_map]. rewrite IH. unfold utf16.
  destruct (N.ltb_spec b 65536) as [_ | Hge]; [reflexivity | lia].
Qed.

(** Decoding commutes with concatenation after an ASCII chunk. *)
Lemma Buffer_toString_app (a b : list byte) :
  ascii_only a ->
  Buffer_toString (a ++ b) = Buffer_toString a ++ Buffer_toString b.
Proof.
  intros Ha. unfold Buffer_toString.
  assert (Ha' : Forall (fun b => (b <= 127)%N) (map Byte.to_N a)).
  { apply Forall_forall. intros n Hn. apply list_elem_of_In in Hn.
    apply in_map_iff in Hn as [x [<- Hx]].
    apply list_elem_of_In in Hx.
    exact (proj1 (Forall_forall _ _) Ha x Hx). }
  rewrite map_app, (utf8_decode_ascii _ _ Ha'), flat_map_app.
  f_equal. rewrite <- (app_nil_r (map Byte.to_N a)) at 2.
  rewrite (utf8_decode_ascii _ [] Ha'), flat_map_app. simpl.
  now rewrite app_nil_r.
Qed.

Lemma text_ascii (chunks : list (list byte)) :
  Forall ascii_only chunks ->
  text Buffer_toString chunks = Buffer_toString (concat chunks).
Proof.
  induction 1 as [| chunk chunks Hc _ IH]; [reflexivity |].
  change (text Buffer_toString (chunk :: chunks))
    with (Buffer_toString chunk ++ text Buffer_toString chunks).
  cbn [concat]. now rewrite (Buffer_toString_app _ _ Hc), IH.
Qed.

(** On ASCII output the stream does not depend on where the chunks are
    cut. *)
Lemma ascii_chunk_invariance JSON_parse chunks1 chunks2 code :
  Forall ascii_only chunks1 -> Forall ascii_only chunks2 ->
  concat chunks1 = concat chunks2 ->
  parseOutputStream Buffer_toString JSON_parse (writes chunks1 code)
  = parseOutputStream Buffer_toString JSON_parse (writes chunks2 code).
Proof.
  intros H1 H2 Heq. apply same_text_same_stream.
  now rewrite (text_ascii _ H1), (text_ascii _ H2), Heq.
Qed.

(** The specification's example: the three chunks give [start] then
    [output], as the same bytes in one chunk do. *)
Example example_chunks_two_events :
  parseOutputStream Buffer_toString parse_line (writes example_chunks (Some 0))
  = ([ev_start (js "t1") None; ev_output (js "hi")], Ended)
  /\ parseOutputStream Buffer_toString parse_line
       (writes [concat example_chunks] (Some 0))
     = ([ev_start (js "t1") None; ev_output (js "hi")], Ended).
Proof. split; vm_compute; reflexivity. Qed.

(** C6, on the code.  Each chunk is decoded on its own by
    [chunk.toString()], so a chunk boundary inside a multi-byte character
    changes the text: the bytes of an [output] event whose content is
    U+00E9 give that event when they arrive whole, and an event whose
    content is two U+FFFD when the boundary falls between the two bytes of
    the character. *)
Theorem chunk_cut_inside_character :
  concat accent_cut = concat accent_whole
  /\ parseOutputStream Buffer_toString parse_line
       (writes accent_whole (Some 0))
     = ([ev_output [233%N]], Ended)
  /\ parseOutputStream Buffer_toString parse_line (writes accent_cut (Some 0))
     = ([ev_output [65533%N; 65533%N]], Ended)
  /\ ~ chunk_invariant Buffer_toString parse_line.
Proof.
  split; [vm_compute; reflexivity |].
  split; [vm_compute; reflexivity |].
  split; [vm_compute; reflexivity |].
  intros Hinv.
  specialize (Hinv accent_cut accent_whole (Some 0)
                ltac:(vm_compute; reflexivity)).
  vm_compute in Hinv. discriminate.
Qed.

(** C1 as the specification words it fails: after the line [oops] the
    valid [output] line is decoded by the callback, but its event does not
    reach the consumer. *)
Lemma valid_line_after_failure_is_lost :
  ~ survives_decode_failure Buffer_toString parse_line garbled_then_valid.
Proof.
  intros H.
  specialize (H [] (js "oops")
                [jsq "{'type':'output','content':'hi'}"]
                (ev_output (js "hi")) (Some 0)
                ltac:(vm_compute; reflexivity)
                ltac:(vm_compute; reflexivity)
                ltac:(vm_compute; left; reflexivity)).
  vm_compute in H. exact H.
Qed.

Lemma decode_failure_ends_stream_witness :
  emitted Buffer_toString parse_line [] (writes garbled_then_valid (Some 0))
  = [emit_fail (ClaudeOutputParseError (js "oops"));
     emit_single (ev_output (js "hi")); emit_end]
  /\ parseOutputStream Buffer_toString parse_line
       (writes garbled_then_valid (Some 0))
     = ([], Failed (ClaudeOutputParseError (js "oops"))).
Proof.
  exact (decode_failure_ends_stream Buffer_toString parse_line
           garbled_then_valid (Some 0) [] (js "oops")
           [jsq "{'type':'output','content':'hi'}"]
           ltac:(vm_compute; reflexivity)
           ltac:(vm_compute; reflexivity)
           ltac:(vm_compute; reflexivity)).
Defined.

(** C9 as the specification words it fails: after the line [oops] the
    unterminated [output] line decodes when the process closes, but its
    event does not reach the consumer, and the stream has ended with the
    error of the line [oops]. *)
Lemma leftover_after_failure_is_lost :
  ~ leftover_reaches_consumer Buffer_toString parse_line
      garbled_then_unterminated.
Proof.
  intros H.
  destruct (H (Some 0) ltac:(vm_compute; reflexivity)) as [Hend _].
  vm_compute in Hend. discriminate.
Qed.

Lemma leftover_decoded_on_close_witness :
  (parseOutputStream Buffer_toString parse_line
     (writes unterminated_valid (Some 0))
   = ([ev_start (js "t1") None; ev_output (js "hi")], Ended))
  /\ (parseOutputStream Buffer_toString parse_line
        (writes unterminated_cut None)
      = ([ev_start (js "t1") None], Ended))
  /\ (on_close parse_line
        (leftover (text Buffer_toString garbled_then_unterminated))
      = [emit_single (ev_output (js "hi")); emit_end]
      /\ parseOutputStream Buffer_toString parse_line
           (writes garbled_then_unterminated (Some 0))
         = ([], Failed (ClaudeOutputParseError (js "oops")))).
Proof.
  split; [| split; [| split]].
  - exact (proj1 (proj2 (proj2
             (leftover_decoded_on_close Buffer_toString parse_line
                unterminated_valid (Some 0) ltac:(vm_compute; reflexivity))))
             ltac:(vm_compute; reflexivity)).
  - exact (proj1 (proj2 (proj2
             (leftover_decoded_on_close Buffer_toString parse_line
                unterminated_cut None ltac:(vm_compute; reflexivity))))
             ltac:(vm_compute; reflexivity)).
  - exact (proj1
             (leftover_decoded_on_close Buffer_toString parse_line
                garbled_then_unterminated (Some 0)
                ltac:(vm_compute; reflexivity))).
  - exact (proj2 (proj2 (proj2
             (leftover_decoded_on_close Buffer_toString parse_line
                garbled_then_unterminated (Some 0)
                ltac:(vm_compute; reflexivity))))
             [] (js "oops") []
             ltac:(vm_compute; reflexivity)
             ltac:(vm_compute; reflexivity)
             ltac:(vm_compute; reflexivity)).
Defined.

End Utf8.

(** ** Task execution *)

Section Execution.

Variable toString : list byte -> jsstring.
Variable JSON_parse : jsstring -> option ClaudeOutputEvent.
Variable defaultTimeout : Z.

Local Abbreviation executeTask :=
  (executeTask toString JSON_parse defaultTimeout).
Local Abbreviation consuming :=
  (consuming toString JSON_parse defaultTimeout).
Local Abbreviation text := (text toString).
Local Abbreviation decodable := (decodable JSON_parse).
Local Abbreviation valid_events := (valid_events JSON_parse).

Lemma success_fold options events :
  forall c,
    (fold_left (on_event options) events c).(success)
    = fold_left
        (fun flag event =>
           match event with
           | ev_complete _ _ => is_success event
           | _ => flag
           end)
        events c.(success).
Proof.
  induction events as [| event events IH]; intros c; [reflexivity |].
  cbn [fold_left]. rewrite IH. f_equal.
  destruct event as [? sid | | | | | ? []]; try reflexivity.
  cbn [on_event].
  now destruct (negb (truthy_opt (sessionId options))
                && bool_decide (is_Some sid)).
Qed.

(** The flag at the end of the stream is the status of the most recent
    [complete] event. *)
Lemma collect_success options events :
  (collect options events).(success) = last_complete_succeeded events.
Proof. unfold collect. now rewrite success_fold. Qed.

(** The decision at the end of [executeTask], for a listener that has
    been called with the exit code ([null] counting as 0): when the most
    recent [complete] event did not report success (or there was none) and
    the code is not 0, it is a failure with [ClaudeProcessError] carrying
    that code and the output collected; in every other case a success with
    the collected output, trimmed. *)
Lemma execution_concludes options events code :
  let c := collect options events in
  let exitCode := match code with Some n => n | None => 0 end in
  c.(success) = last_complete_succeeded events
  /\ conclude c code
     = if negb (last_complete_succeeded events) && negb (exitCode =? 0)
       then Failure (ClaudeProcessError (js "Claude process failed")
                       (Some exitCode) (Some c.(output)))
       else Success (mkResult c.(newSessionId) (trim c.(output)) exitCode
                       (last_complete_succeeded events)).
Proof.
  intros c exitCode. split; [apply collect_success |].
  unfold conclude. fold exitCode. subst c.
  rewrite (collect_success options events). reflexivity.
Qed.

(** [executeTask] over a process that writes decodable lines and closes:
    the events are consumed as they come, and the wait for the exit code
    begins after that [close]. *)
Lemma consuming_data options chunks :
  forall buffer c rest,
    ~ In LF buffer ->
    forallb decodable (complete_lines (buffer ++ text chunks)) = true ->
    consuming options buffer c (map of_process (map stdout_data chunks) ++ rest)
    = consuming options (leftover (buffer ++ text chunks))
        (fold_left (on_event options)
           (valid_events (complete_lines (buffer ++ text chunks))) c)
        rest.
Proof.
  induction chunks as [| chunk chunks IH]; intros buffer c rest Hbuf Hok.
  - unfold complete_lines, leftover, ClaudeService.text. simpl.
    rewrite app_nil_r, (split_no_sep LF buffer Hbuf). reflexivity.
  - change (text (chunk :: chunks)) with (toString chunk ++ text chunks)
      in *.
    rewrite app_assoc in *.
    rewrite (complete_lines_app (buffer ++ toString chunk) (text chunks))
      in *.
    rewrite (leftover_app (buffer ++ toString chunk) (text chunks)).
    rewrite forallb_app in Hok. apply andb_prop in Hok as [Hok1 Hok2].
    rewrite valid_events_app, fold_left_app.
    cbn [map app ClaudeService.consuming handle on_data].
    fold (leftover (buffer ++ toString chunk)).
    fold (complete_lines (buffer ++ toString chunk)).
    rewrite (decode_lines_decodable JSON_parse _ Hok1).
    rewrite <- (app_nil_r (map emit_single _)), deliver_singles.
    cbn [deliver fst snd]. rewrite app_nil_r.
    apply IH; [apply last_split_no_sep | exact Hok2].
Qed.

Lemma executeTask_awaits_after_close options chunks code rest :
  forallb decodable (complete_lines (text chunks)) = true ->
  executeTask options (map of_process (writes chunks code) ++ rest)
  = awaitExit
      (collect options
         (fst (parseOutputStream toString JSON_parse (writes chunks code))))
      rest.
Proof.
  intros Hok. unfold ClaudeService.executeTask, writes.
  rewrite map_app, <- app_assoc.
  rewrite consuming_data by (try (intros []); exact Hok).
  cbn [app map ClaudeService.consuming handle].
  fold (writes chunks code).
  rewrite (parseOutputStream_text toString JSON_parse chunks code).
  rewrite (decode_lines_decodable JSON_parse _ Hok), deliver_singles.
  cbn [fst]. unfold collect. rewrite fold_left_app.
  unfold on_close.
  destruct (truthy (trim (leftover (text chunks))));
    [destruct (JSON_parse (trim (leftover (text chunks)))) |];
    reflexivity.
Qed.

(** The [close] that ended the stream is not heard again: with nothing
    after it the execution stays suspended. *)
Lemma executeTask_suspended_after_close options chunks code :
  forallb decodable (complete_lines (text chunks)) = true ->
  executeTask options (map of_process (writes chunks code)) = Pending.
Proof.
  intros Hok.
  rewrite <- (app_nil_r (map of_process (writes chunks code))).
  now rewrite executeTask_awaits_after_close.
Qed.

End Execution.

(** C2, on the code.  [executeTask] starts to listen for the exit code,
    under "Wait for process to exit", once the stream has ended, and the
    stream ends on the [close] event that carried the exit code.  A process
    that writes an [output] line and a successful [complete] line and exits
    with code 0 should make it succeed with the output [hi], which is what
    the decision at its end gives on these events; a process that writes
    an [output] line only and exits with code 1 should make it fail with
    [ClaudeProcessError] and exit code 1.  On both runs [executeTask] is
    still waiting when the process is gone: it neither succeeds nor
    fails. *)
Theorem executeTask_never_concludes :
  parseOutputStream Buffer_toString parse_line
    (writes [output_line ++ [x0a] ++ success_line ++ [x0a]] (Some 0))
  = ([ev_output (js "hi"); ev_complete (js "t1") status_success], Ended)
  /\ conclude
       (collect no_options
          [ev_output (js "hi"); ev_complete (js "t1") status_success])
       (Some 0)
     = Success (mkResult None (js "hi") 0 true)
  /\ executeTask Buffer_toString parse_line 300000 no_options successful_run
     = Pending
  /\ parseOutputStream Buffer_toString parse_line
       (writes [output_line ++ [x0a]] (Some 1))
     = ([ev_output (js "hi")], Ended)
  /\ conclude (collect no_options [ev_output (js "hi")]) (Some 1)
     = Failure (ClaudeProcessError (js "Claude process failed") (Some 1)
                  (Some (js "hi" ++ [LF])))
  /\ executeTask Buffer_toString parse_line 300000 no_options failed_run
     = Pending.
Proof. repeat split; vm_compute; reflexivity. Qed.

(** The flag is the status of the last [complete] event, not a record of
    some success seen: a [complete] event reporting success followed by
    one reporting failure, with exit code 1, is decided as a failure. *)
Lemma later_failure_overrides_success :
  ~ fails_only_without_success no_options
      [ev_complete (js "t1") status_success;
       ev_complete (js "t1") status_failure]
      (Some 1).
Proof.
  intros [_ H].
  destruct H as [result [Hresult _]].
  - intros [Hseen _]. vm_compute in Hseen. discriminate.
  - vm_compute in Hresult. discriminate.
Qed.

(** ** Process release *)

(** Only a [kill()] that failed to deliver leaves [killed] unset: the
    finalizer reaches its [SIGKILL] only when the process was already
    gone. *)
Lemma release_forces_only_the_dead process :
  In (call_kill SIGKILL) (snd (release process)) -> process.(alive) = false.
Proof.
  unfold release, kill.
  destruct (bool_decide _ && negb (killed process)); simpl;
    [| intros []].
  destruct (alive process); [| reflexivity]. simpl.
  intros [H | [H | []]]; discriminate.
Qed.

(** C5, on the code.  For a child that traps SIGTERM the finalizer sends
    SIGTERM, sleeps one second and stops there: [process.killed] has
    become true with the delivery of SIGTERM, the test guarding SIGKILL
    fails, and the process is still alive when the finalizer returns.  A
    child that exits on SIGTERM is terminated. *)
Theorem release_leaves_stubborn_child_alive :
  release stubborn_child
  = (mkChild (Some 4242) true true true [SIGTERM],
     [call_kill SIGTERM; sleep 1000])
  /\ (fst (release stubborn_child)).(alive) = true
  /\ release cooperative_child
     = (mkChild (Some 4242) true false false [SIGTERM],
        [call_kill SIGTERM; sleep 1000]).
Proof. repeat split. Qed.

End ClaudeServiceSpec.

(** * Further properties of the code *)

(** ** Session store: the remaining operations *)

Module SessionManagerFacts.
Import SessionManager.

Section Store.

Variable sessionTimeout : Z.

Implicit Types (m : gmap string SessionState) (s : SessionState).
Implicit Types (sid : string) (now : Z).

(** [deleteSession] on an absent id fails with [SessionNotFoundError] and
    changes nothing; on a present id it removes that record and no other,
    so that the table holds one record less. *)
Theorem deleteSession_outcomes sid m :
  (m !! sid = None ->
   run (deleteSession sid) m = (Failure (SessionNotFoundError sid), m))
  /\ (forall s, m !! sid = Some s ->
      run (deleteSession sid) m = (Success tt, delete sid m)
      /\ delete sid m !! sid = None
      /\ (forall other, other <> sid -> delete sid m !! other = m !! other)
      /\ S (size (delete sid m)) = size m).
Proof.
  split.
  - intros H. cbn. now rewrite H.
  - intros s H. cbn. rewrite H.
    split; [reflexivity |]. split; [apply lookup_delete_eq |].
    split; [intros other Hne; now apply lookup_delete_ne |].
    rewrite <- (insert_delete_id m sid s H) at 2.
    rewrite map_size_insert_None; [reflexivity | apply lookup_delete_eq].
Qed.

(** Creating a session under an unused id and deleting it again gives
    back the table as it was. *)
Theorem create_then_delete uuid now (user : string) (md : option Metadata) m :
  m !! uuid = None ->
  run (deleteSession uuid)
      (snd (run (createSession sessionTimeout uuid now user md) m))
  = (Success tt, m).
Proof.
  intros Hfresh. cbn. rewrite lookup_insert_eq. cbn.
  now rewrite delete_insert_id.
Qed.

(** A session just created, with an expiry [now + sessionTimeout] that is
    a valid date, is returned by [getSession] at every time up to that
    expiry, with [updatedAt] the time of the call; after that time the
    first [getSession] reports it expired and removes it. *)
Theorem create_then_get uuid now later (user : string)
    (md : option Metadata) m :
  valid_time now -> valid_time (now + sessionTimeout) ->
  let created := snd (run (createSession sessionTimeout uuid now user md) m) in
  (later <= now + sessionTimeout ->
   fst (run (getSession later uuid) created)
   = Success (mkSession uuid user now later (now + sessionTimeout) None md))
  /\ (later > now + sessionTimeout ->
      run (getSession later uuid) created
      = (Failure (SessionExpiredError uuid (now + sessionTimeout)),
         delete uuid m)).
Proof.
  intros _ _. cbn. rewrite lookup_insert_eq. cbn. split; intros H.
  - destruct (Z.gtb_spec later (now + sessionTimeout)); [lia | reflexivity].
  - destruct (Z.gtb_spec later (now + sessionTimeout)); [| lia].
    cbn. now rewrite delete_insert_eq.
Qed.

(** [isSessionValid] never changes the table and, the dates stored under
    the id being valid ones, answers [true] exactly when [getSession] at
    the same time would succeed. *)
Theorem isSessionValid_agrees_with_getSession now sid m :
  valid_dates sid m ->
  exists valid,
    run (isSessionValid now sid) m = (Success valid, m)
    /\ (valid = true <->
        exists session, fst (run (getSession now sid) m) = Success session).
Proof.
  intros _. cbn. destruct (m !! sid) as [s |] eqn:Hs; cbn.
  - exists (now <=? expiresAt s). split; [reflexivity |].
    destruct (Z.gtb_spec now (expiresAt s)) as [Hgt | Hle]; cbn.
    + split; [intros H; apply Z.leb_le in H; lia | intros [? [=]]].
    + split; [intros _; eauto | intros _; apply Z.leb_le; lia].
  - exists false. split; [reflexivity |].
    split; [discriminate | intros [? [=]]].
Qed.

(** The sweep, entry by entry: the count so far and what is left of the
    full table once the entries of [seen] have been visited. *)
Lemma sweep_invariant now (full seen : gmap string SessionState) :
  let result :=
    map_fold
      (fun sessionId session '(expiredCount, newMap) =>
         if now >? session.(expiresAt)
         then (S expiredCount, delete sessionId newMap)
         else (expiredCount, newMap))
      (0%nat, full) seen in
  fst result = size (filter (fun kv => now > (snd kv).(expiresAt)) seen)
  /\ forall sid,
       snd result !! sid
       = match seen !! sid with
         | Some s => if now >? s.(expiresAt) then None else full !! sid
         | None => full !! sid
         end.
Proof.
  cbv zeta. apply (map_fold_weak_ind (fun result seen =>
    fst result = size (filter (fun kv => now > (snd kv).(expiresAt)) seen)
    /\ forall sid,
         snd result !! sid
         = match seen !! sid with
           | Some s => if now >? s.(expiresAt) then None else full !! sid
           | None => full !! sid
           end)).
  - split; [now rewrite map_filter_empty, map_size_empty |].
    intros sid. now rewrite lookup_empty.
  - intros i x seen' [count rest] Hi [Hcount Hrest]. cbn in Hcount, Hrest.
    destruct (Z.gtb_spec now (expiresAt x)) as [Hexp | Hlive]; cbn.
    + split.
      * rewrite map_filter_insert_True by (cbn; lia).
        rewrite map_size_insert_None, Hcount; [reflexivity |].
        apply map_lookup_filter_None. now left.
      * intros sid. destruct (decide (sid = i)) as [-> | Hne].
        -- rewrite lookup_delete_eq, lookup_insert_eq.
           destruct (Z.gtb_spec now (expiresAt x)); [reflexivity | lia].
        -- rewrite lookup_delete_ne, lookup_insert_ne by congruence.
           apply Hrest.
    + split.
      * rewrite map_filter_insert_False by (cbn; lia).
        rewrite delete_id by exact Hi. exact Hcount.
      * intros sid. destruct (decide (sid = i)) as [-> | Hne].
        -- rewrite lookup_insert_eq, Hrest, Hi.
           destruct (Z.gtb_spec now (expiresAt x)); [lia | reflexivity].
        -- rewrite lookup_insert_ne by congruence. apply Hrest.
Qed.

Lemma cleanup_lookup now m sid :
  snd (cleanupExpiredSessions now m) !! sid
  = match m !! sid with
    | Some s => if now >? s.(expiresAt) then None else Some s
    | None => None
    end.
Proof.
  unfold cleanupExpiredSessions.
  rewrite (proj2 (sweep_invariant now m m) sid).
  now destruct (m !! sid).
Qed.

Lemma cleanup_result now m :
  snd (cleanupExpiredSessions now m)
  = filter (fun kv => ~ now > (snd kv).(expiresAt)) m.
Proof.
  apply map_eq. intros sid. rewrite cleanup_lookup.
  destruct (m !! sid) as [s |] eqn:Hs.
  - destruct (Z.gtb_spec now (expiresAt s)) as [Hexp | Hlive].
    + symmetry. apply map_lookup_filter_None. right.
      intros s' Hs'. rewrite Hs in Hs'. injection Hs' as <-. cbn. lia.
    + symmetry. apply map_lookup_filter_Some. split; [exact Hs | cbn; lia].
  - symmetry. apply map_lookup_filter_None. now left.
Qed.

Lemma cleanup_count now m :
  (fst (cleanupExpiredSessions now m)
   + size (snd (cleanupExpiredSessions now m)))%nat
  = size m.
Proof.
  rewrite cleanup_result. unfold cleanupExpiredSessions.
  rewrite (proj1 (sweep_invariant now m m)).
  rewrite <- (map_size_disj_union
                (filter (fun kv => now > expiresAt (snd kv)) m)
                (filter (fun kv => ~ now > expiresAt (snd kv)) m))
    by apply map_disjoint_filter_complement.
  now rewrite map_filter_union_complement.
Qed.

(** [cleanupExpiredSessions] removes exactly the records with
    [now > expiresAt], leaves the others as they were, and returns the
    number of records it removed. *)
Theorem cleanup_removes_the_expired now m :
  (forall sid,
     snd (cleanupExpiredSessions now m) !! sid
     = match m !! sid with
       | Some s => if now >? s.(expiresAt) then None else Some s
       | None => None
       end)
  /\ (fst (cleanupExpiredSessions now m)
      + size (snd (cleanupExpiredSessions now m)))%nat
     = size m.
Proof. split; [intros sid; apply cleanup_lookup | apply cleanup_count]. Qed.

(** After a sweep at some time, a second sweep at that time finds nothing
    to remove, and no [getSession] at that time reports an expired
    session. *)
Theorem cleanup_leaves_nothing_expired now m sid :
  cleanupExpiredSessions now (snd (cleanupExpiredSessions now m))
  = (0%nat, snd (cleanupExpiredSessions now m))
  /\ forall expiredAt,
       fst (run (getSession now sid) (snd (cleanupExpiredSessions now m)))
       <> Failure (SessionExpiredError sid expiredAt).
Proof.
  assert (Hlive : forall k s,
            snd (cleanupExpiredSessions now m) !! k = Some s ->
            ~ now > expiresAt s).
  { intros k s. rewrite cleanup_lookup.
    destruct (m !! k) as [s' |]; [| discriminate].
    destruct (Z.gtb_spec now (expiresAt s')); [discriminate |].
    intros [= <-]. lia. }
  split.
  - assert (Hsame : snd (cleanupExpiredSessions now
                           (snd (cleanupExpiredSessions now m)))
                    = snd (cleanupExpiredSessions now m)).
    { apply map_eq. intros k. rewrite cleanup_lookup.
      destruct (snd (cleanupExpiredSessions now m) !! k) as [s |] eqn:Hk;
        [| reflexivity].
      pose proof (Hlive k s Hk).
      destruct (Z.gtb_spec now (expiresAt s)); [lia | reflexivity]. }
    pose proof (cleanup_count now (snd (cleanupExpiredSessions now m)))
      as Hcount.
    rewrite Hsame in Hcount.
    destruct (cleanupExpiredSessions now (snd (cleanupExpiredSessions now m)))
      as [count rest] eqn:E.
    cbn in Hsame, Hcount. subst rest. f_equal. lia.
  - intros expiredAt. cbn.
    destruct (snd (cleanupExpiredSessions now m) !! sid) as [s |] eqn:Hs;
      [| discriminate].
    pose proof (Hlive sid s Hs).
    destruct (Z.gtb_spec now (expiresAt s)); [lia | discriminate].
Qed.

(** [getUserSessions] changes nothing and lists exactly the stored
    sessions of that user, expired or not, each with [updatedAt] its stored
    [lastAccessedAt]. *)
Theorem getUserSessions_lists_the_users_sessions (user : string) m :
  exists sessions,
    run (getUserSessions user) m = (Success sessions, m)
    /\ forall v,
         In v sessions <->
         exists sid s,
           m !! sid = Some s /\ s.(userId) = user
           /\ v = view s s.(lastAccessedAt).
Proof.
  eexists. split; [reflexivity |]. intros v. rewrite in_map_iff. split.
  - intros [s [<- Hs]]. apply list_elem_of_In, list_elem_of_filter in Hs.
    destruct Hs as [Huser Hs]. apply list_elem_of_In, in_map_iff in Hs.
    destruct Hs as [[sid s'] [<- Hin]].
    apply list_elem_of_In, elem_of_map_to_list in Hin.
    exists sid, s'. repeat split; assumption.
  - intros (sid & s & Hs & Huser & ->). exists s. split; [reflexivity |].
    apply list_elem_of_In, list_elem_of_filter. split; [exact Huser |].
    apply list_elem_of_In, in_map_iff. exists (sid, s).
    split; [reflexivity |]. now apply list_elem_of_In, elem_of_map_to_list.
Qed.

(** No operation of the store moves a record away from its own id: if
    every record sits under its [sessionId] before, the same holds after
    [createSession], [getSession], [updateSession] (whatever [sessionId]
    the update supplies), [deleteSession], [incrementTaskCount] and the
    sweep. *)
Theorem operations_keep_records_under_their_id m :
  well_keyed m ->
  (forall uuid now (user : string) (md : option Metadata),
     well_keyed (snd (run (createSession sessionTimeout uuid now user md) m)))
  /\ (forall now sid, well_keyed (snd (run (getSession now sid) m)))
  /\ (forall now sid (updates : PartialSessionState),
        well_keyed (snd (run (updateSession now sid updates) m)))
  /\ (forall sid, well_keyed (snd (run (deleteSession sid) m)))
  /\ (forall now sid, well_keyed (snd (run (incrementTaskCount now sid) m)))
  /\ (forall now, well_keyed (snd (cleanupExpiredSessions now m))).
Proof.
  intros Hm. unfold well_keyed in *. repeat split.
  - intros uuid now user md. cbn. now apply map_Forall_insert_2.
  - intros now sid. cbn. destruct (m !! sid) as [s |] eqn:Hs; cbn;
      [| exact Hm].
    destruct (now >? expiresAt s); cbn.
    + now apply map_Forall_delete.
    + apply map_Forall_insert_2; [exact (Hm sid s Hs) | exact Hm].
  - intros now sid updates. cbn.
    destruct (m !! sid) as [s |] eqn:Hs; cbn; [| exact Hm].
    apply map_Forall_insert_2; [exact (Hm sid s Hs) | exact Hm].
  - intros sid. cbn. destruct (m !! sid); cbn; [| exact Hm].
    now apply map_Forall_delete.
  - intros now sid. cbn. unfold bump.
    destruct (m !! sid) as [s |] eqn:Hs; [| exact Hm].
    apply map_Forall_insert_2; [exact (Hm sid s Hs) | exact Hm].
  - intros now key s. rewrite cleanup_lookup.
    destruct (m !! key) as [s' |] eqn:Hs; [| discriminate].
    destruct (now >? expiresAt s'); [discriminate |].
    intros [= <-]. exact (Hm key s' Hs).
Qed.


End Store.

(** *** The facts at work on the example tables *)

Lemma two_sessions_well_keyed : well_keyed two_sessions.
Proof.
  apply map_Forall_insert_2; [reflexivity |].
  apply map_Forall_singleton. reflexivity.
Qed.

Lemma concurrent_increments_witness :
  taskCountOf "s1"
    (snd (interleave [2; 0; 1]%nat
            (map (fun now => incrementTaskCount now "s1") [20; 21; 22])
            demo_sessions))
  = Some 6.
Proof.
  apply (SessionManagerSpec.concurrent_increments "s1" [20; 21; 22]
           [2; 0; 1]%nat demo_sessions 3);
    try reflexivity; unfold MAX_SAFE_INTEGER; simpl; lia.
Defined.

Lemma deleteSession_outcomes_witness :
  run (deleteSession "nobody") demo_sessions
  = (Failure (SessionNotFoundError "nobody"), demo_sessions)
  /\ run (deleteSession "s1") demo_sessions
     = (Success tt, delete "s1" demo_sessions).
Proof.
  split.
  - apply (deleteSession_outcomes "nobody" demo_sessions). reflexivity.
  - apply (proj2 (deleteSession_outcomes "s1" demo_sessions) demo_session).
    reflexivity.
Defined.

Lemma create_then_delete_witness :
  run (deleteSession "0b5e-fresh")
      (snd (run (createSession 3600000 "0b5e-fresh" 50 "bob" None)
              demo_sessions))
  = (Success tt, demo_sessions).
Proof.
  apply (create_then_delete 3600000 "0b5e-fresh" 50 "bob" None demo_sessions).
  reflexivity.
Defined.

Lemma create_then_get_witness :
  fst (run (getSession 3600050 "0b5e-fresh")
         (snd (run (createSession 3600000 "0b5e-fresh" 50 "bob" None)
                 demo_sessions)))
  = Success (mkSession "0b5e-fresh" "bob" 50 3600050 3600050 None None)
  /\ run (getSession 3600051 "0b5e-fresh")
       (snd (run (createSession 3600000 "0b5e-fresh" 50 "bob" None)
               demo_sessions))
     = (Failure (SessionExpiredError "0b5e-fresh" 3600050),
        delete "0b5e-fresh" demo_sessions).
Proof.
  assert (Hnow : valid_time 50) by (unfold valid_time, MAX_TIME; lia).
  assert (Hexp : valid_time (50 + 3600000))
    by (unfold valid_time, MAX_TIME; lia).
  split.
  - apply (create_then_get 3600000 "0b5e-fresh" 50 3600050 "bob" None
             demo_sessions Hnow Hexp). simpl. lia.
  - apply (create_then_get 3600000 "0b5e-fresh" 50 3600051 "bob" None
             demo_sessions Hnow Hexp). simpl. lia.
Defined.

Lemma isSessionValid_agrees_with_getSession_witness :
  exists valid,
    run (isSessionValid 100 "s1") demo_sessions = (Success valid, demo_sessions)
    /\ (valid = true <->
        exists session,
          fst (run (getSession 100 "s1") demo_sessions) = Success session).
Proof.
  apply (isSessionValid_agrees_with_getSession 100 "s1" demo_sessions).
  intros session Hs. vm_compute in Hs. injection Hs as <-.
  unfold valid_time, MAX_TIME. simpl. lia.
Defined.

Lemma operations_keep_records_under_their_id_witness :
  well_keyed (snd (run (updateSession 60 "s1" overwrite_all) two_sessions))
  /\ well_keyed (snd (cleanupExpiredSessions 50 two_sessions)).
Proof.
  destruct (operations_keep_records_under_their_id 3600000 two_sessions
              two_sessions_well_keyed) as (_ & _ & Hupdate & _ & _ & Hsweep).
  split; [apply Hupdate | apply Hsweep].
Defined.


End SessionManagerFacts.

(** ** Stream decoder and task execution: further facts *)

Module ClaudeServiceFacts.
Import ClaudeServiceSpec.

Section Decoding.

Variable toString : list byte -> jsstring.
Variable JSON_parse : jsstring -> option ClaudeOutputEvent.

Local Abbreviation decode_line := (decode_line JSON_parse).
Local Abbreviation on_close := (on_close JSON_parse).
Local Abbreviation emitted := (emitted toString JSON_parse).
Local Abbreviation parseOutputStream := (parseOutputStream toString JSON_parse).
Local Abbreviation text := (text toString).
Local Abbreviation decodable := (decodable JSON_parse).
Local Abbreviation malformed := (malformed JSON_parse).
Local Abbreviation valid_events := (valid_events JSON_parse).

Lemma emitted_without_stderr trace :
  forall buffer,
    emitted buffer (without_stderr trace) = emitted buffer trace.
Proof.
  induction trace as [| ev trace IH]; intros buffer; [reflexivity |].
  destruct ev; cbn [without_stderr ClaudeService.emitted handle].
  - destruct (on_data toString JSON_parse buffer chunk). now rewrite IH.
  - cbn [app]. apply IH.
  - now rewrite IH.
  - now rewrite IH.
Qed.

(** What the process writes on standard error never changes the event
    stream: a run and the same run without its [stderr] events give the
    same events and the same end. *)
Theorem stderr_never_reaches_the_stream trace :
  parseOutputStream (without_stderr trace) = parseOutputStream trace.
Proof.
  unfold ClaudeService.parseOutputStream. now rewrite emitted_without_stderr.
Qed.

Lemma on_close_events buffer :
  on_close buffer = map emit_single (valid_events [buffer]) ++ [emit_end].
Proof.
  unfold ClaudeService.on_close, ClaudeService.valid_events. cbn [flat_map].
  rewrite app_nil_r. destruct (truthy (trim buffer)); [| reflexivity].
  now destruct (JSON_parse (trim buffer)).
Qed.

Lemma no_malformed_all_decodable lines :
  existsb malformed lines = false -> forallb decodable lines = true.
Proof.
  induction lines as [| line lines IH]; [reflexivity |].
  cbn [existsb forallb]. unfold ClaudeService.malformed at 1.
  destruct (decodable line); cbn; [exact IH | discriminate].
Qed.

(** The decoder neither invents nor reorders nor repeats events, and it
    never leaves the stream open: once the process has closed, the
    consumer has received a prefix of the events of the lines in their
    order of arrival (the unterminated last line included), the stream has
    terminated, and when it terminated normally nothing is missing. *)
Theorem stream_is_an_ordered_prefix chunks code :
  let stream := parseOutputStream (writes chunks code) in
  let decoded :=
    valid_events (complete_lines (text chunks) ++ [leftover (text chunks)]) in
  snd stream <> Open
  /\ exists later,
       decoded = fst stream ++ later
       /\ (snd stream = Ended -> later = []).
Proof.
  cbv zeta. rewrite parseOutputStream_text, on_close_events, valid_events_app.
  destruct (existsb malformed (complete_lines (text chunks))) eqn:Hany.
  - destruct (first_malformed JSON_parse _ Hany)
      as (good & bad & rest & Hlines & Hgood & Hbad).
    rewrite Hlines, flat_map_app, (decode_lines_decodable _ _ Hgood).
    cbn [flat_map]. rewrite (decode_line_malformed _ _ Hbad).
    rewrite <- !app_assoc, deliver_singles. cbn [app deliver fst snd].
    rewrite app_nil_r. split; [discriminate |].
    eexists. split; [| discriminate].
    rewrite valid_events_app, <- app_assoc. reflexivity.
  - apply no_malformed_all_decodable in Hany.
    rewrite (decode_lines_decodable _ _ Hany), app_assoc, <- map_app.
    rewrite deliver_singles. cbn [deliver fst snd]. rewrite app_nil_r.
    split; [discriminate |]. exists []. now rewrite app_nil_r.
Qed.

(** *** Carriage returns *)

Lemma trimStart_blank (l : jsstring) :
  forallb isWhiteSpace l = true -> trimStart l = [].
Proof.
  induction l as [| c l IH]; [reflexivity |].
  cbn. destruct (isWhiteSpace c); [exact IH | discriminate].
Qed.

Lemma trimStart_snoc (l : jsstring) c :
  forallb isWhiteSpace l = false -> trimStart (l ++ [c]) = trimStart l ++ [c].
Proof.
  induction l as [| a l IH]; [discriminate |].
  cbn. destruct (isWhiteSpace a); [exact IH | reflexivity].
Qed.

Lemma trim_snoc_whitespace (l : jsstring) c :
  isWhiteSpace c = true -> trim (l ++ [c]) = trim l.
Proof.
  intros Hc. unfold trim.
  destruct (forallb isWhiteSpace l) eqn:Hl.
  - rewrite (trimStart_blank l Hl), (trimStart_blank (l ++ [c]));
      [reflexivity |].
    rewrite forallb_app, Hl. cbn. now rewrite Hc.
  - rewrite (trimStart_snoc l c Hl), rev_app_distr. cbn. now rewrite Hc.
Qed.

Lemma split_crlf (t : jsstring) :
  split LF (crlf t) = with_cr (split LF t).
Proof.
  induction t as [| c t IH]; [reflexivity |].
  pose proof (split_nonempty LF t) as Hne.
  cbn [crlf flat_map split]. fold (crlf t).
  destruct (N.eqb_spec c LF) as [-> | Hc].
  - cbn. rewrite IH. destruct (split LF t); [contradiction | reflexivity].
  - cbn. destruct (N.eqb_spec c LF); [contradiction |].
    rewrite IH. destruct (split LF t) as [| l [| l' ls]];
      [contradiction | reflexivity | reflexivity].
Qed.

Lemma with_cr_lines (pieces : list jsstring) :
  removelast (with_cr pieces) = map (fun l => l ++ [CR]) (removelast pieces)
  /\ List.last (with_cr pieces) [] = List.last pieces [].
Proof.
  induction pieces as [| l [| l' ls] IH]; [now split | now split |].
  destruct IH as [IH1 IH2].
  change (with_cr (l :: l' :: ls)) with ((l ++ [CR]) :: with_cr (l' :: ls)).
  destruct (with_cr (l' :: ls)) as [| w ws] eqn:Hw.
  - destruct ls; discriminate.
  - split.
    + change (removelast (l :: l' :: ls)) with (l :: removelast (l' :: ls)).
      cbn [map]. rewrite <- IH1. reflexivity.
    + exact IH2.
Qed.

Lemma decode_line_cr (l : jsstring) : decode_line (l ++ [CR]) = decode_line l.
Proof.
  unfold ClaudeService.decode_line.
  now rewrite (trim_snoc_whitespace l CR eq_refl).
Qed.

(** Line ends may be CR LF: a text whose line feeds are each preceded by a
    carriage return gives the same stream as the text without the carriage
    returns. *)
Theorem carriage_returns_do_not_matter chunks1 chunks2 code :
  text chunks2 = crlf (text chunks1) ->
  parseOutputStream (writes chunks2 code)
  = parseOutputStream (writes chunks1 code).
Proof.
  intros Htext. rewrite !parseOutputStream_text, Htext.
  unfold complete_lines, leftover. rewrite split_crlf.
  destruct (with_cr_lines (split LF (text chunks1))) as [-> ->].
  f_equal. f_equal.
  induction (removelast (split LF (text chunks1))) as [| l ls IH];
    [reflexivity |].
  cbn [map flat_map]. now rewrite decode_line_cr, IH.
Qed.

End Decoding.

(** *** [executeTask] *)

Section Execution.

Variable toString : list byte -> jsstring.
Variable JSON_parse : jsstring -> option ClaudeOutputEvent.
Variable defaultTimeout : Z.

Local Abbreviation executeTask :=
  (executeTask toString JSON_parse defaultTimeout).
Local Abbreviation consuming :=
  (consuming toString JSON_parse defaultTimeout).
Local Abbreviation decode_line := (decode_line JSON_parse).
Local Abbreviation text := (text toString).
Local Abbreviation decodable := (decodable JSON_parse).
Local Abbreviation malformed := (malformed JSON_parse).
Local Abbreviation valid_events := (valid_events JSON_parse).

Lemma find_app_first {A} (f : A -> bool) (l1 l2 : list A) :
  find f (l1 ++ l2)
  = match find f l1 with Some x => Some x | None => find f l2 end.
Proof.
  induction l1 as [| a l1 IH]; [reflexivity |].
  cbn. now destruct (f a).
Qed.

Lemma find_none_decodable lines :
  find malformed lines = None -> forallb decodable lines = true.
Proof.
  induction lines as [| line lines IH]; [reflexivity |].
  cbn [find forallb]. unfold ClaudeService.malformed at 1.
  destruct (decodable line); cbn; [exact IH | discriminate].
Qed.

Lemma deliver_first_failure lines bad :
  find malformed lines = Some bad ->
  exists events,
    deliver (flat_map decode_line lines)
    = (events, Failed (ClaudeOutputParseError (trim bad))).
Proof.
  induction lines as [| line lines IH]; [discriminate |].
  cbn [find flat_map]. destruct (malformed line) eqn:Hline.
  - intros [= <-]. rewrite (decode_line_malformed _ _ Hline).
    now exists [].
  - intros Hfind. destruct (IH Hfind) as [events Hevents].
    assert (Hok : decodable line = true).
    { unfold ClaudeService.malformed in Hline. now destruct (decodable line). }
    rewrite (decode_line_decodable _ _ Hok), deliver_singles, Hevents.
    eexists. reflexivity.
Qed.

Lemma consuming_malformed options bad rest chunks :
  forall buffer c,
    ~ In LF buffer ->
    find malformed (complete_lines (buffer ++ text chunks)) = Some bad ->
    consuming options buffer c (map of_process (map stdout_data chunks) ++ rest)
    = Done (Failure (ClaudeOutputParseError (trim bad))).
Proof.
  induction chunks as [| chunk chunks IH]; intros buffer c Hbuf Hfind.
  - exfalso. revert Hfind.
    unfold complete_lines, ClaudeService.text. cbn.
    rewrite app_nil_r, (split_no_sep LF buffer Hbuf). discriminate.
  - change (text (chunk :: chunks)) with (toString chunk ++ text chunks)
      in Hfind.
    rewrite app_assoc in Hfind.
    rewrite (complete_lines_app (buffer ++ toString chunk) (text chunks))
      in Hfind.
    rewrite find_app_first in Hfind.
    cbn [map app ClaudeService.consuming handle on_data].
    fold (leftover (buffer ++ toString chunk)).
    fold (complete_lines (buffer ++ toString chunk)).
    destruct (find malformed (complete_lines (buffer ++ toString chunk)))
      as [b |] eqn:Hnow.
    + injection Hfind as ->.
      destruct (deliver_first_failure _ _ Hnow) as [events ->].
      reflexivity.
    + apply find_none_decodable in Hnow.
      rewrite (decode_lines_decodable JSON_parse _ Hnow).
      rewrite <- (app_nil_r (map emit_single _)), deliver_singles.
      cbn [deliver fst snd]. rewrite app_nil_r.
      apply IH; [apply last_split_no_sep | exact Hfind].
Qed.

(** One malformed line fails the whole task: as soon as a complete,
    non-blank line that [JSON.parse] refuses has arrived, [executeTask]
    fails with [ClaudeOutputParseError] carrying that line trimmed,
    whatever the process writes or returns afterwards. *)
Theorem malformed_line_fails_the_task options chunks bad rest :
  find malformed (complete_lines (text chunks)) = Some bad ->
  executeTask options (map of_process (map stdout_data chunks) ++ rest)
  = Done (Failure (ClaudeOutputParseError (trim bad))).
Proof.
  intros Hfind. unfold ClaudeService.executeTask.
  apply consuming_malformed; [intros [] | exact Hfind].
Qed.

(** While the stream is consumed, an [error] event of the process fails
    the task with [ClaudeProcessError] and its message, and the timer
    fails it with [ClaudeTimeoutError], whose [taskId] is the session id
    passed in (or [unknown]) and whose [timeoutMs] is the task's own
    timeout, the default standing in for a missing or zero one. *)
Theorem consumption_ends_early options chunks message rest :
  forallb decodable (complete_lines (text chunks)) = true ->
  executeTask options
    (map of_process (map stdout_data chunks)
     ++ of_process (error message) :: rest)
  = Done (Failure
            (ClaudeProcessError (js "Claude process error: " ++ message)
               None None))
  /\ executeTask options
       (map of_process (map stdout_data chunks) ++ timeout_elapsed :: rest)
     = Done (Failure
               (ClaudeTimeoutError (timeoutTaskId options)
                  (match options.(timeout) with
                   | Some 0 | None => defaultTimeout
                   | Some t => t
                   end))).
Proof.
  intros Hok. unfold ClaudeService.executeTask. split.
  - rewrite consuming_data by (try (intros []); exact Hok). reflexivity.
  - rewrite consuming_data by (try (intros []); exact Hok).
    cbn [ClaudeService.consuming]. unfold timeoutTaskId, effectiveTimeout.
    destruct (timeout options) as [[| t | t] |]; reflexivity.
Qed.

Lemma output_fold options events :
  forall c,
    (fold_left (on_event options) events c).(output)
    = c.(output) ++ flat_map rendered events.
Proof.
  induction events as [| event events IH]; intros c.
  - cbn. now rewrite app_nil_r.
  - cbn [fold_left flat_map]. rewrite IH, app_assoc. f_equal.
    destruct event as [? sid | | | | |]; cbn;
      rewrite ?app_nil_r, <- ?app_assoc; try reflexivity.
    now destruct (negb (truthy_opt (sessionId options))
                  && bool_decide (is_Some sid)).
Qed.

(** The collected output is, in the order of the events, the content of
    every [output] event followed by a line feed and [ERROR: ] with the
    message of every [error] event followed by a line feed; the other
    events add nothing. *)
Theorem collected_output options events :
  (collect options events).(output) = flat_map rendered events.
Proof. unfold collect. now rewrite output_fold. Qed.

Lemma session_fold options events :
  forall c,
    (fold_left (on_event options) events c).(newSessionId)
    = if truthy_opt options.(sessionId) then c.(newSessionId)
      else match last_started events with
           | Some sid => Some sid
           | None => c.(newSessionId)
           end.
Proof.
  induction events as [| event events IH] using rev_ind; intros c.
  - cbn. now destruct (truthy_opt (sessionId options)).
  - unfold last_started. rewrite !fold_left_app. cbn [fold_left].
    fold (last_started events).
    destruct (truthy_opt (sessionId options)) eqn:Ht;
      destruct event as [? [sid |] | | | | |];
      cbn [on_event newSessionId]; rewrite ?Ht; cbn;
      rewrite ?IH, ?Ht; reflexivity.
Qed.

(** The session id of the result: when a non-empty session id was passed
    in, that id, whatever the events say; otherwise the [sessionId] of the
    last [start] event that carries one, if any. *)
Theorem collected_session options events :
  (collect options events).(newSessionId)
  = if truthy_opt options.(sessionId) then options.(sessionId)
    else match last_started events with
         | Some sid => Some sid
         | None => options.(sessionId)
         end.
Proof. unfold collect. now rewrite session_fold. Qed.

End Execution.

(** *** [checkAvailability] and the release action *)

(** [checkAvailability] looks neither at what [claude --version] prints
    nor at its exit code: the first [close] makes it answer [true], and an
    [error] event before any [close] makes it answer [false]. *)
Theorem availability_ignores_output_and_exit_code before code message rest :
  forallb is_output before = true ->
  checkAvailability (Some (before ++ close code :: rest)) = Some true
  /\ checkAvailability (Some (before ++ error message :: rest)) = Some false.
Proof.
  cbn [checkAvailability].
  induction before as [| ev before IH]; intros Hout; [now split |].
  cbn [forallb] in Hout. apply andb_prop in Hout as [Hev Hout].
  destruct ev; try discriminate; cbn [app awaitVersion]; exact (IH Hout).
Qed.

(** Releasing a child that is alive and not yet flagged sends exactly one
    SIGTERM, waits one second and never sends SIGKILL; the child survives
    exactly when it ignores SIGTERM; and a second release of the same
    handle does nothing at all. *)
Theorem release_of_a_live_child (p : ChildProcess) n :
  p.(alive) = true -> p.(pid) = Some n -> n <> 0 -> p.(killed) = false ->
  release p
  = (mkChild p.(pid) true p.(ignoresSIGTERM) p.(ignoresSIGTERM)
       (p.(received) ++ [SIGTERM]),
     [call_kill SIGTERM; sleep 1000])
  /\ release (fst (release p)) = (fst (release p), []).
Proof.
  intros Halive Hpid Hn Hkilled.
  assert (Hfirst : release p
    = (mkChild p.(pid) true p.(ignoresSIGTERM) p.(ignoresSIGTERM)
         (p.(received) ++ [SIGTERM]),
       [call_kill SIGTERM; sleep 1000])).
  { unfold release, kill. rewrite Hkilled, Halive, Hpid.
    rewrite bool_decide_eq_true_2; [reflexivity |].
    split; [eauto | congruence]. }
  split; [exact Hfirst |].
  rewrite Hfirst. cbn [fst]. unfold release. cbn [killed negb].
  now rewrite andb_false_r.
Qed.

(** *** The facts at work on the example inputs *)

Lemma carriage_returns_do_not_matter_witness :
  parseOutputStream Buffer_toString parse_line
    (writes example_chunks_crlf (Some 0))
  = parseOutputStream Buffer_toString parse_line
      (writes example_chunks (Some 0)).
Proof.
  apply (carriage_returns_do_not_matter Buffer_toString parse_line
           example_chunks example_chunks_crlf (Some 0)).
  vm_compute. reflexivity.
Defined.

Lemma ascii_chunk_invariance_witness :
  parseOutputStream Buffer_toString parse_line (writes example_chunks None)
  = parseOutputStream Buffer_toString parse_line
      (writes [concat example_chunks] None).
Proof.
  apply (ascii_chunk_invariance parse_line example_chunks
           [concat example_chunks] None).
  - repeat constructor; vm_compute; discriminate.
  - repeat constructor; vm_compute; discriminate.
  - vm_compute. reflexivity.
Defined.

Lemma malformed_line_fails_the_task_witness :
  executeTask Buffer_toString parse_line 300000 no_options
    (map of_process (map stdout_data garbled_then_valid)
     ++ [of_process (close (Some 0))])
  = Done (Failure (ClaudeOutputParseError (js "oops"))).
Proof.
  apply (malformed_line_fails_the_task Buffer_toString parse_line 300000
           no_options garbled_then_valid (js "oops")).
  vm_compute. reflexivity.
Defined.

Lemma consumption_ends_early_witness :
  executeTask Buffer_toString parse_line 300000 resume_options
    (map of_process (map stdout_data example_chunks) ++ [timeout_elapsed])
  = Done (Failure (ClaudeTimeoutError (js "claude-1") 300000)).
Proof.
  apply (proj2 (consumption_ends_early Buffer_toString parse_line 300000
                  resume_options example_chunks [] []
                  ltac:(vm_compute; reflexivity))).
Defined.

Lemma executeTask_suspended_after_close_witness :
  executeTask Buffer_toString parse_line 300000 no_options
    (map of_process (writes example_chunks (Some 0)))
  = Pending.
Proof.
  apply (executeTask_suspended_after_close Buffer_toString parse_line 300000
           no_options example_chunks (Some 0)).
  vm_compute. reflexivity.
Defined.

Lemma availability_ignores_output_and_exit_code_witness :
  checkAvailability
    (Some [stderr_data (bytes "claude: not logged in"); close (Some 1)])
  = Some true.
Proof.
  apply (availability_ignores_output_and_exit_code
           [stderr_data (bytes "claude: not logged in")] (Some 1) [] []).
  reflexivity.
Defined.

Lemma release_of_a_live_child_witness :
  release (fst (release stubborn_child)) = (fst (release stubborn_child), []).
Proof.
  apply (release_of_a_live_child stubborn_child 4242);
    [reflexivity | reflexivity | lia | reflexivity].
Defined.

Lemma release_forces_only_the_dead_witness :
  exited_child.(alive) = false.
Proof.
  apply (release_forces_only_the_dead exited_child).
  vm_compute. right. right. left. reflexivity.
Defined.

End ClaudeServiceFacts.

(** ** Configuration *)

Module ConfigFacts.
Import Config SessionManager.

Section Parsing.

Lemma digit_char d :
  0 <= d < 10 ->
  isDigit (Z.to_N (48 + d)) = true /\ Z.of_N (Z.to_N (48 + d)) - 48 = d.
Proof.
  intros Hd. split; [| lia]. unfold isDigit.
  apply andb_true_intro. split; apply N.leb_le; lia.
Qed.

Lemma digitsValue_decimal fuel :
  forall n acc rest,
    0 <= n < 10 ^ Z.of_nat fuel ->
    digitsValue acc (decimal fuel n ++ rest)
    = digitsValue (acc * 10 ^ Z.of_nat (length (decimal fuel n)) + n) rest.
Proof.
  induction fuel as [| fuel IH]; intros n acc rest Hn.
  - change (10 ^ Z.of_nat 0) with 1 in Hn. cbn. f_equal. lia.
  - cbn [decimal]. destruct (Z.ltb_spec n 10) as [Hlt | Hge].
    + cbn [app digitsValue length].
      destruct (digit_char n ltac:(lia)) as [-> ->]. f_equal. lia.
    + rewrite <- app_assoc, IH.
      2:{ rewrite Nat2Z.inj_succ, Z.pow_succ_r in Hn by lia.
          split; [apply Z.div_pos; lia |].
          apply Z.div_lt_upper_bound; lia. }
      cbn [app digitsValue].
      destruct (digit_char (n mod 10)
                  ltac:(apply Z.mod_pos_bound; lia)) as [-> ->].
      f_equal. rewrite length_app, Nat2Z.inj_add. cbn [length].
      rewrite Z.pow_add_r by lia.
      pose proof (Z.div_mod n 10 ltac:(lia)). lia.
Qed.

Lemma decimal_head fuel n :
  0 <= n ->
  exists c s, decimal (S fuel) n = c :: s /\ isDigit c = true.
Proof.
  revert n. induction fuel as [| fuel IH]; intros n Hn.
  - cbn. destruct (Z.ltb_spec n 10).
    + eexists _, _. split; [reflexivity |]. now apply digit_char.
    + eexists _, _. split; [reflexivity |].
      apply digit_char, Z.mod_pos_bound. lia.
  - cbn [decimal]. destruct (Z.ltb_spec n 10).
    + eexists _, _. split; [reflexivity |]. now apply digit_char.
    + destruct (IH (n / 10) ltac:(apply Z.div_pos; lia))
        as (c & s & Heq & Hc).
      cbn [decimal] in Heq. rewrite Heq.
      exists c, (s ++ [Z.to_N (48 + n mod 10)]). now split.
Qed.

Lemma enough_fuel n : 0 <= n -> n < 10 ^ Z.of_nat (S (Z.to_nat (Z.log2 n))).
Proof.
  intros Hn. rewrite Nat2Z.inj_succ, Z2Nat.id by apply Z.log2_nonneg.
  destruct (Z.eq_dec n 0) as [-> | Hne]; [reflexivity |].
  pose proof (Z.log2_spec n ltac:(lia)) as [_ Hlt].
  eapply Z.lt_le_trans; [exact Hlt |].
  apply Z.pow_le_mono_l. pose proof (Z.log2_nonneg n). lia.
Qed.

Lemma unsigned_decimal n :
  0 <= n -> unsigned (decimal (S (Z.to_nat (Z.log2 n))) n) = Some n.
Proof.
  intros Hn.
  destruct (decimal_head (Z.to_nat (Z.log2 n)) n Hn) as (c & s & Heq & Hc).
  unfold unsigned. rewrite Heq, Hc, <- Heq. f_equal.
  rewrite <- (app_nil_r (decimal _ n)).
  rewrite digitsValue_decimal by (split; [exact Hn | now apply enough_fuel]).
  reflexivity.
Qed.

Lemma digit_not_blank c :
  isDigit c = true ->
  isWhiteSpace c = false /\ c <> 45%N /\ c <> 43%N.
Proof.
  unfold isDigit. intros H. apply andb_prop in H as [H1 H2].
  apply N.leb_le in H1, H2. repeat split; [| lia | lia].
  unfold isWhiteSpace.
  repeat match goal with
         | |- context [(?a <=? ?b)%N] =>
             destruct (N.leb_spec a b); try lia
         | |- context [(?a =? ?b)%N] =>
             destruct (N.eqb_spec a b); try lia
         end; reflexivity.
Qed.

(** Reading back what [String] printed. *)
Lemma parseInt_Number_toString n : parseInt (Number_toString n) = Some n.
Proof.
  unfold Number_toString, parseInt.
  destruct (Z.ltb_spec n 0) as [Hneg | Hpos].
  - cbn [trimStart]. change (isWhiteSpace 45) with false. cbn iota.
    rewrite unsigned_decimal by lia. cbn. f_equal. lia.
  - destruct (decimal_head (Z.to_nat (Z.log2 n)) n Hpos)
      as (c & s & Heq & Hc).
    pose proof (unsigned_decimal n Hpos) as Hu. rewrite Heq in *.
    destruct (digit_not_blank c Hc) as (Hws & H45 & H43).
    cbn [trimStart]. rewrite Hws.
    destruct c as [| p]; [exact Hu |].
    repeat (destruct p as [p | p |]; try exact Hu; try contradiction).
Qed.

End Parsing.

Section Getters.

Implicit Types (env : Env).

Lemma validPort_Some text port :
  validPort text = Some port ->
  1 <= port <= 65535 /\ parseInt text = Some port.
Proof.
  unfold validPort. destruct (parseInt text) as [n |]; [| discriminate].
  destruct (Z.ltb_spec n 1); [discriminate |].
  destruct (Z.gtb_spec n 65535); [discriminate |].
  cbn. intros [= <-]. split; [lia | reflexivity].
Qed.

Lemma atLeastOne_positive text fallback :
  1 <= fallback -> 1 <= atLeastOne text fallback.
Proof.
  intros Hf. unfold atLeastOne. destruct (parseInt text) as [n |]; [| exact Hf].
  destruct (Z.ltb_spec n 1); lia.
Qed.

Lemma session_timeout_positive env : 1 <= getSessionTimeout env.
Proof. apply atLeastOne_positive. lia. Qed.

(** Whatever the environment holds, the getters stay in range: the port
    lies in 1..65535 and the timeouts, the queue size, the concurrency
    limit and the token limit are at least 1. *)
Theorem getters_stay_in_range env :
  1 <= getServerPort env <= 65535
  /\ 1 <= getSessionTimeout env
  /\ 1 <= getTaskTimeout env
  /\ 1 <= getMaxQueueSize env
  /\ 1 <= getConcurrentTaskLimit env
  /\ 1 <= getMaxMcpTokens env.
Proof.
  split.
  - unfold getServerPort.
    destruct (validPort _) as [port |] eqn:Hport; [| lia].
    now apply validPort_Some in Hport.
  - repeat split; apply atLeastOne_positive; lia.
Qed.

Lemma orElse_unset value fallback :
  truthy_value value = false -> orElse value fallback = fallback.
Proof.
  destruct value as [v |]; [| reflexivity]. cbn. now intros ->.
Qed.

(** With a variable unset or empty, its getter returns the documented
    default: port 3002, sessions of one hour, tasks of five minutes, a
    queue of 100, 5 concurrent tasks, 50000 tokens. *)
Theorem getters_default_when_unset env :
  (truthy_value (env !! "PORT") = false -> getServerPort env = 3002)
  /\ (truthy_value (env !! "SESSION_TIMEOUT_MS") = false ->
      getSessionTimeout env = 3600000)
  /\ (truthy_value (env !! "TASK_TIMEOUT_MS") = false ->
      getTaskTimeout env = 300000)
  /\ (truthy_value (env !! "MAX_QUEUE_SIZE") = false ->
      getMaxQueueSize env = 100)
  /\ (truthy_value (env !! "CONCURRENT_TASK_LIMIT") = false ->
      getConcurrentTaskLimit env = 5)
  /\ (truthy_value (env !! "MAX_MCP_OUTPUT_TOKENS") = false ->
      getMaxMcpTokens env = 50000).
Proof.
  unfold getServerPort, getSessionTimeout, getTaskTimeout, getMaxQueueSize,
    getConcurrentTaskLimit, getMaxMcpTokens.
  repeat split; intros H; rewrite (orElse_unset _ _ H); reflexivity.
Qed.

(** When [validate] passes, the getters do not fall back silently: the API
    key getter succeeds, and a non-empty [PORT] is the port
    [getServerPort] returns. *)
Theorem validate_agrees_with_getters env :
  validate env = Success tt ->
  (exists apiKey, getAnthropicApiKey env = Success apiKey)
  /\ (forall port,
        env !! "PORT" = Some port -> truthy port = true ->
        parseInt port = Some (getServerPort env)).
Proof.
  unfold validate, getAnthropicApiKey, getServerPort.
  destruct (env !! "ANTHROPIC_API_KEY") as [key |]; cbn; [| discriminate].
  destruct (truthy key); cbn; [| discriminate].
  intros Hvalid. split; [eauto |].
  intros port Hport Htruthy. rewrite Hport in *. cbn. rewrite Htruthy in *.
  destruct (validPort port) as [n |] eqn:Hn; [| discriminate].
  now apply validPort_Some in Hn.
Qed.

(** A session is never born expired: with the timeout the service reads
    from any environment, a session created at a time [now] of the epoch,
    with an expiry [now + timeout] that is a valid date, is valid at the
    very time it is created. *)
Theorem created_session_is_valid env uuid now (user : string)
    (md : option Metadata) (m : gmap string SessionState) :
  0 <= now -> valid_time (now + getSessionTimeout env) ->
  let created :=
    snd (run (createSession (getSessionTimeout env) uuid now user md) m) in
  fst (run (isSessionValid now uuid) created) = Success true
  /\ fst (run (getSession now uuid) created)
     = Success (mkSession uuid user now now (now + getSessionTimeout env)
                  None md).
Proof.
  intros _ _. pose proof (session_timeout_positive env) as Hpos.
  cbn. rewrite lookup_insert_eq. cbn. split.
  - f_equal. apply Z.leb_le. lia.
  - destruct (Z.gtb_spec now (now + getSessionTimeout env)); [lia |].
    reflexivity.
Qed.

End Getters.

Section Validators.

Implicit Types (env : Env).

(** [parsePort], for an integer default below 10^21 in size: it fails only
    when the variable is set and not empty, and then names the variable
    and its value; a port it returns lies in 1..65535 unless it is the
    default of an unset variable, which is returned as it is, in range or
    not. *)
Theorem parsePort_outcomes env (envVar : string) defaultPort :
  - 10 ^ 21 < defaultPort < 10 ^ 21 ->
  (forall port,
     parsePort env envVar defaultPort = Success port ->
     1 <= port <= 65535
     \/ (truthy_value (env !! envVar) = false /\ port = defaultPort))
  /\ (forall err,
        parsePort env envVar defaultPort = Failure err ->
        truthy_value (env !! envVar) = true
        /\ err.(v_field) = envVar
        /\ err.(v_value) = env !! envVar)
  /\ (truthy_value (env !! envVar) = false ->
      parsePort env envVar defaultPort = Success defaultPort).
Proof.
  intros _. unfold parsePort. split; [| split].
  - intros port. destruct (validPort _) as [n |] eqn:Hn.
    + intros [= <-]. left. now apply validPort_Some in Hn.
    + destruct (truthy_value (env !! envVar)); [discriminate |].
      intros [= <-]. now right.
  - intros err. destruct (validPort _); [discriminate |].
    destruct (env !! envVar) as [v |] eqn:Hv; cbn; [| discriminate].
    destruct (truthy v); [| discriminate]. intros [= <-]. now repeat split.
  - intros Hunset. rewrite (orElse_unset _ _ Hunset), Hunset.
    destruct (validPort _) as [n |] eqn:Hn; [| reflexivity].
    apply validPort_Some in Hn as [_ Hn].
    rewrite parseInt_Number_toString in Hn. congruence.
Qed.

(** [parsePositiveInt], for an integer default below 10^21 in size: it
    fails only when the variable is set and not empty; a value it returns
    is at least 1 unless it is the default of an unset variable, which is
    returned as it is. *)
Theorem parsePositiveInt_outcomes env (envVar : string) defaultValue :
  - 10 ^ 21 < defaultValue < 10 ^ 21 ->
  (forall num,
     parsePositiveInt env envVar defaultValue = Success num ->
     1 <= num
     \/ (truthy_value (env !! envVar) = false /\ num = defaultValue))
  /\ (forall err,
        parsePositiveInt env envVar defaultValue = Failure err ->
        truthy_value (env !! envVar) = true /\ err.(v_field) = envVar)
  /\ (truthy_value (env !! envVar) = false ->
      parsePositiveInt env envVar defaultValue = Success defaultValue).
Proof.
  intros _. unfold parsePositiveInt. split; [| split].
  - intros num. destruct (parseInt _) as [n |] eqn:Hn.
    + destruct (Z.ltb_spec n 1).
      * destruct (truthy_value (env !! envVar)); [discriminate |].
        intros [= <-]. now right.
      * intros [= <-]. now left.
    + destruct (truthy_value (env !! envVar)); [discriminate |].
      intros [= <-]. now right.
  - intros err.
    destruct (parseInt _) as [n |]; [destruct (n <? 1); [| discriminate] |];
      (destruct (truthy_value (env !! envVar)); [| discriminate]);
      intros [= <-]; now split.
  - intros Hunset. rewrite (orElse_unset _ _ Hunset), Hunset.
    rewrite parseInt_Number_toString. now destruct (defaultValue <? 1).
Qed.

End Validators.

(** *** The facts at work on example environments *)

Lemma getters_default_when_unset_witness :
  getServerPort ∅ = 3002 /\ getSessionTimeout ∅ = 3600000.
Proof.
  split.
  - apply (getters_default_when_unset ∅). reflexivity.
  - apply (proj1 (proj2 (getters_default_when_unset ∅))). reflexivity.
Defined.

Lemma created_session_is_valid_witness :
  fst (run (isSessionValid 50 "0b5e-fresh")
         (snd (run (createSession (getSessionTimeout env_ok) "0b5e-fresh" 50
                      "bob" None) demo_sessions)))
  = Success true
  /\ fst (run (getSession 50 "0b5e-fresh")
            (snd (run (createSession (getSessionTimeout env_ok) "0b5e-fresh"
                         50 "bob" None) demo_sessions)))
     = Success (mkSession "0b5e-fresh" "bob" 50 50
                  (50 + getSessionTimeout env_ok) None None).
Proof.
  apply (created_session_is_valid env_ok "0b5e-fresh" 50 "bob" None
           demo_sessions).
  - lia.
  - unfold valid_time; split; apply Z.leb_le; vm_compute; reflexivity.
Defined.

Lemma validate_agrees_with_getters_witness :
  parseInt (js " 8080/tcp") = Some (getServerPort env_ok).
Proof.
  apply (proj2 (validate_agrees_with_getters env_ok eq_refl)
           (js " 8080/tcp")); reflexivity.
Defined.

Lemma parsePort_outcomes_witness :
  parsePort env_bad_port "ADMIN_PORT" 0 = Success 0
  /\ truthy_value (env_bad_port !! "PORT") = true.
Proof.
  split.
  - apply (parsePort_outcomes env_bad_port "ADMIN_PORT" 0); [lia |].
    reflexivity.
  - refine (proj1 (proj1 (proj2 (parsePort_outcomes env_bad_port "PORT" 80
                                   _))
                     (mkValidationError
                        (js "Invalid port value for PORT: http"
                         ++ js ". Must be between 1 and 65535")
                        "PORT" (Some (js "http"))) _));
      [lia | vm_compute; reflexivity].
Defined.

Lemma parsePositiveInt_outcomes_witness :
  parsePositiveInt env_ok "WORKERS" 4 = Success 4.
Proof.
  apply (parsePositiveInt_outcomes env_ok "WORKERS" 4); [lia |].
  reflexivity.
Defined.

End ConfigFacts.

(** ** Ref helpers *)

Module RefHelpersFacts.
Import RefHelpers SessionManager.

Section Pool.

Context {St E : Type}.

Implicit Types (fibers : list (Eff St E St)).
Implicit Types (todo : list (option (St -> St))).

Lemma stage_insert todo fibers i o p :
  Forall2 stage todo fibers -> stage o p ->
  Forall2 stage (<[i := o]> todo) (<[i := p]> fibers).
Proof.
  intros Hall Hop. revert i.
  induction Hall as [| o' p' todo fibers Hhead Htail IH]; intros i.
  - constructor.
  - destruct i as [| i]; cbn; constructor; auto.
Qed.

Lemma todo_applied todo i f :
  todo !! i = Some (Some f) ->
  Permutation (f :: omap id (<[i := None]> todo)) (omap id todo).
Proof.
  revert i. induction todo as [| o todo IH]; intros [| i] Hi;
    try discriminate.
  - injection Hi as ->. reflexivity.
  - cbn in Hi. change (<[S i := None]> (o :: todo))
      with (o :: <[i := None]> todo).
    destruct o as [g |]; cbn.
    + rewrite perm_swap. constructor. now apply IH.
    + now apply IH.
Qed.

Lemma nothing_left todo fibers :
  Forall2 stage todo fibers -> pending fibers = 0%nat -> omap id todo = [].
Proof.
  induction 1 as [| o p todo fibers Hhead _ IH]; [reflexivity |].
  rewrite SessionManagerSpec.pending_cons.
  destruct Hhead; cbn; try discriminate; exact IH.
Qed.

(** At every point of every schedule the cell holds the start value with
    some of the functions applied, and those applied together with those
    still to come are the functions of the pool. *)
Lemma helpers_invariant schedule :
  forall fibers todo (s : St),
    Forall2 stage todo fibers ->
    exists applied todo',
      Forall2 stage todo' (fst (interleave schedule fibers s))
      /\ snd (interleave schedule fibers s) = applyAll applied s
      /\ Permutation (applied ++ omap id todo') (omap id todo).
Proof.
  induction schedule as [| i schedule IH]; intros fibers todo s Hall.
  - exists [], todo. now repeat split.
  - cbn [interleave].
    destruct (fibers !! i) as [p |] eqn:Hp; [| now apply IH].
    destruct (Forall2_lookup_r _ _ _ _ _ Hall Hp) as (o & Ho & Hstage).
    destruct Hstage as [f | f current | f | | value]; cbn [step].
    + destruct (IH (<[i := Ref_update f (succeed s)]> fibers)
                  (<[i := Some f]> todo) s
                  (stage_insert _ _ i _ _ Hall (stage_read f s)))
        as (applied & todo' & H1 & H2 & H3).
      exists applied, todo'. repeat split; [exact H1 | exact H2 |].
      now rewrite (list_insert_id todo i (Some f) Ho) in H3.
    + destruct (IH (<[i := succeed current]> fibers)
                  (<[i := None]> todo) (f s)
                  (stage_insert _ _ i _ _ Hall (stage_done current)))
        as (applied & todo' & H1 & H2 & H3).
      exists (f :: applied), todo'. repeat split; [exact H1 | exact H2 |].
      cbn [app]. rewrite H3. now apply todo_applied.
    + destruct (IH (<[i := Ref_get (fun a => succeed a)]> fibers)
                  (<[i := None]> todo) (f s)
                  (stage_insert _ _ i _ _ Hall stage_updated))
        as (applied & todo' & H1 & H2 & H3).
      exists (f :: applied), todo'. repeat split; [exact H1 | exact H2 |].
      cbn [app]. rewrite H3. now apply todo_applied.
    + destruct (IH (<[i := succeed s]> fibers) (<[i := None]> todo) s
                  (stage_insert _ _ i _ _ Hall (stage_done s)))
        as (applied & todo' & H1 & H2 & H3).
      exists applied, todo'. repeat split; [exact H1 | exact H2 |].
      now rewrite (list_insert_id todo i None Ho) in H3.
    + now apply IH.
Qed.

(** [getAndUpdate] and [updateAndGet] read and write in two steps, yet
    they lose no update: however the fibers of a pool of such calls are
    interleaved, once all have finished the cell holds the start value
    with every call's function applied exactly once, in some order. *)
Theorem helpers_lose_no_update schedule fibers (fs : list (St -> St))
    (s : St) :
  Forall2 (fun f p => p = getAndUpdate f \/ p = updateAndGet f) fs fibers ->
  pending (fst (interleave schedule fibers s)) = 0%nat ->
  exists order,
    Permutation order fs
    /\ snd (interleave schedule fibers s) = applyAll order s.
Proof.
  intros Hpool Hdone.
  assert (Hall : Forall2 stage (Some <$> fs) fibers).
  { clear Hdone.
    induction Hpool as [| f p fs fibers Hp _ IH]; cbn; [constructor |].
    constructor; [| exact IH]. destruct Hp as [-> | ->]; constructor. }
  assert (Hfs : omap id (Some <$> fs) = fs).
  { clear. induction fs as [| f fs IH]; [reflexivity |].
    cbn. now rewrite IH. }
  destruct (helpers_invariant schedule fibers (Some <$> fs) s Hall)
    as (applied & todo' & H1 & H2 & H3).
  rewrite (nothing_left _ _ H1 Hdone), app_nil_r, Hfs in H3.
  now exists applied.
Qed.

End Pool.

Lemma helpers_lose_no_update_witness :
  exists order,
    Permutation order [Z.add 1; Z.mul 2]
    /\ snd (interleave [0; 1; 1; 0]%nat two_helpers 5) = applyAll order 5.
Proof.
  apply (helpers_lose_no_update [0; 1; 1; 0]%nat two_helpers
           [Z.add 1; Z.mul 2] 5).
  - constructor; [now left |]. constructor; [now right | constructor].
  - reflexivity.
Defined.

End RefHelpersFacts.
